(** * python-abp, [abp/filters/rpy.py]: the rPython bridge

    A shallow embedding of the three functions of [abp/filters/rpy.py]
    ([tuple2dict], [strings2utf8], [line2dict]) over a model of the Python 3
    values they handle, and the properties of the bridge stated in the
    specification of the repository.

    Conventions of the model (Python 3 semantics):
    - [str] is a sequence of code points; [bytes] is a sequence of octets;
    - a [dict] is an insertion-ordered association list whose keys are
      hashable and pairwise different under [==];
    - an exception is a value of [exn], and code that can raise returns a
      [result];
    - a comprehension evaluates the key of an entry before its value
      (Python 3.8 and later);
    - floating point numbers, subclasses of the built-in containers and the
      interpreter's recursion limit are outside the model.

    The functions are modelled twice: on values ([strings2utf8],
    [tuple2dict], [line2dict]), and, for the claim that nothing is mutated,
    on a store in which lists and dicts are objects with an address
    ([strings2utf8_h], [tuple2dict_h]); the two are proved to agree. *)

From Stdlib Require Import NArith ZArith Strings.Byte Ascii String List Bool Lia.
From stdpp Require Import base numbers list.
Import ListNotations.

Local Open Scope N_scope.

(** ** Text, bytes and the UTF-8 codec *)

(** A Python 3 [str]: a sequence of code points.  Every code point of a real
    [str] is below [0x110000]; lone surrogates ([0xD800]-[0xDFFF]) are
    allowed in a [str]. *)
Definition text := list N.
Definition bytes := list byte.

Definition is_code_point (c : N) : bool := c <? 0x110000.
Definition is_surrogate (c : N) : bool := (0xD800 <=? c) && (c <=? 0xDFFF).

Definition octet (n : N) : byte :=
  match Byte.of_N n with
  | Some b => b
  | None => x00
  end.

(** UTF-8 encoding of one code point, as the strict [utf-8] codec does it:
    surrogates are refused. *)
Definition utf8_code_point (c : N) : option bytes :=
  if c <? 0x80 then Some [octet c]
  else if c <? 0x800 then
    Some [octet (N.lor 0xC0 (N.shiftr c 6));
          octet (N.lor 0x80 (N.land c 0x3F))]
  else if is_surrogate c then None
  else if c <? 0x10000 then
    Some [octet (N.lor 0xE0 (N.shiftr c 12));
          octet (N.lor 0x80 (N.land (N.shiftr c 6) 0x3F));
          octet (N.lor 0x80 (N.land c 0x3F))]
  else if c <? 0x110000 then
    Some [octet (N.lor 0xF0 (N.shiftr c 18));
          octet (N.lor 0x80 (N.land (N.shiftr c 12) 0x3F));
          octet (N.lor 0x80 (N.land (N.shiftr c 6) 0x3F));
          octet (N.lor 0x80 (N.land c 0x3F))]
  else None.

(** Exceptions.  [UnicodeEncodeError] and [TypeError] are the two that the
    operations used in [rpy.py] can raise themselves; [OtherError] stands for
    any other exception class (for instance the parser's own), with its class
    name and message. *)
Inductive exn : Type :=
| UnicodeEncodeError (object : text) (start : nat)
| TypeError
| OtherError (cls : text) (msg : text).

Inductive result (A : Type) : Type :=
| Ok (a : A)
| Raise (e : exn).
Arguments Ok {A} a.
Arguments Raise {A} e.

Definition bind {A B : Type} (c : result A) (k : A -> result B) : result B :=
  match c with
  | Ok a => k a
  | Raise e => Raise e
  end.

Notation "x <- c1 ;; c2" := (bind c1 (fun x => c2))
  (at level 100, c1 at next level, right associativity).

(** [s.encode('utf-8')]: the octets of all code points, or
    [UnicodeEncodeError] at the first code point the codec refuses. *)
Fixpoint utf8_from (whole : text) (pos : nat) (s : text) : result bytes :=
  match s with
  | [] => Ok []
  | c :: rest =>
      match utf8_code_point c with
      | Some bs => tl <- utf8_from whole (S pos) rest ;; Ok (bs ++ tl)
      | None => Raise (UnicodeEncodeError whole pos)
      end
  end.

Definition encode_utf8 (s : text) : result bytes := utf8_from s 0 s.

(** Literals: an ASCII string literal read as a [str] and as a [bytes]. *)
Definition str_lit (s : string) : text := map N_of_ascii (list_ascii_of_string s).
Definition bytes_lit (s : string) : bytes := list_byte_of_string s.

(** ** Python values *)

Unset Elimination Schemes.
Inductive pyval : Type :=
| PNone
| PBool (b : bool)
| PInt (n : Z)
| PStr (s : text)
| PBytes (b : bytes)
| PList (items : list pyval)
| PTuple (items : list pyval)
| PDict (items : list (pyval * pyval))
| PObj (id : N).
Set Elimination Schemes.

(** [hash(v)] succeeds: lists and dicts are unhashable, a tuple is hashable
    when all its elements are. *)
Fixpoint hashable (v : pyval) : bool :=
  match v with
  | PList _ | PDict _ => false
  | PTuple items => forallb hashable items
  | _ => true
  end.

#[global] Instance byte_eq_decision : EqDecision byte := Byte.byte_eq_dec.

Definition text_eqb (s t : text) : bool := bool_decide (s = t).
Definition bytes_eqb (s t : bytes) : bool := bool_decide (s = t).

(** [a == b] on hashable values, as a dict uses it to compare keys.  [True]
    and [1] are the same key; a [str] never equals a [bytes]; an object of
    another class is equal to itself only.  Unhashable values never reach a
    key comparison (hashing them raises first). *)
Fixpoint key_eqb (a b : pyval) : bool :=
  match a, b with
  | PNone, PNone => true
  | PBool x, PBool y => Bool.eqb x y
  | PBool x, PInt n => Z.eqb (Z.b2z x) n
  | PInt n, PBool x => Z.eqb n (Z.b2z x)
  | PInt m, PInt n => Z.eqb m n
  | PStr s, PStr t => text_eqb s t
  | PBytes s, PBytes t => bytes_eqb s t
  | PTuple xs, PTuple ys =>
      (fix all2 (xs ys : list pyval) : bool :=
         match xs, ys with
         | [], [] => true
         | x :: xs', y :: ys' => key_eqb x y && all2 xs' ys'
         | _, _ => false
         end) xs ys
  | PObj i, PObj j => N.eqb i j
  | _, _ => false
  end.

(** ** Dict operations *)

Definition dict_items := list (pyval * pyval).

(** [d[k] = v] on the entries of a dict: an equal key keeps its place and its
    key object and takes the new value, a new key goes last. *)
Fixpoint dict_store (d : dict_items) (k v : pyval) : dict_items :=
  match d with
  | [] => [(k, v)]
  | (k0, v0) :: rest =>
      if key_eqb k0 k then (k0, v) :: rest
      else (k0, v0) :: dict_store rest k v
  end.

Definition dict_setitem (d : dict_items) (k v : pyval) : result dict_items :=
  if hashable k then Ok (dict_store d k v) else Raise TypeError.

(** [d.get(k)] *)
Fixpoint dict_get (d : dict_items) (k : pyval) : option pyval :=
  match d with
  | [] => None
  | (k0, v0) :: rest => if key_eqb k0 k then Some v0 else dict_get rest k
  end.

Definition dict_keys (d : dict_items) : list pyval := map fst d.

(** ** [strings2utf8] *)

Section Comprehensions.
Variable f : pyval -> result pyval.

(** [[f(v) for v in items]] *)
Fixpoint list_comp (items : list pyval) : result (list pyval) :=
  match items with
  | [] => Ok []
  | v :: rest => v' <- f v ;; rest' <- list_comp rest ;; Ok (v' :: rest')
  end.

(** [{f(k): f(v) for k, v in items}], [acc] being the dict built so far *)
Fixpoint dict_comp (items : dict_items) (acc : dict_items) : result dict_items :=
  match items with
  | [] => Ok acc
  | (k, v) :: rest =>
      k' <- f k ;;
      v' <- f v ;;
      acc' <- dict_setitem acc k' v' ;;
      dict_comp rest acc'
  end.
End Comprehensions.

Fixpoint strings2utf8 (data : pyval) : result pyval :=
  match data with
  | PDict items => d <- dict_comp strings2utf8 items [] ;; Ok (PDict d)
  | PList items => l <- list_comp strings2utf8 items ;; Ok (PList l)
  | PTuple items => l <- list_comp strings2utf8 items ;; Ok (PTuple l)
  | PStr s => b <- encode_utf8 s ;; Ok (PBytes b)
  | _ => Ok data
  end.

(** ** [tuple2dict] *)

(** An instance of a [collections.namedtuple] class: the class name, the
    field names ([_fields]) and the values of the tuple. *)
Record namedtuple : Type := {
  class_name : text;
  fields : list text;
  values : list pyval
}.

(** [dict(pairs)] and [d.update(pairs)]: the pairs are stored in order. *)
Fixpoint dict_update (acc : dict_items) (pairs : list (pyval * pyval))
  : result dict_items :=
  match pairs with
  | [] => Ok acc
  | (k, v) :: rest => acc' <- dict_setitem acc k v ;; dict_update acc' rest
  end.

(** [data._asdict()]: the dict of [zip(data._fields, data)] *)
Definition asdict (data : namedtuple) : result dict_items :=
  dict_update [] (combine (map PStr (fields data)) (values data)).

Definition tuple2dict (data : namedtuple) : result pyval :=
  fields_dict <- asdict data ;;
  result <- dict_update [] fields_dict ;;
  result <- dict_setitem result (PStr (str_lit "type")) (PStr (class_name data)) ;;
  Ok (PDict result).

(** ** [line2dict] *)

Section Line2dict.
(** [abp.filters.parse_line] is imported from another module: it takes a
    line ([str] or [bytes]) and returns a namedtuple or raises. *)
Variable parse_line : pyval -> result namedtuple.

Definition line2dict (text : pyval) : result pyval :=
  parsed <- parse_line text ;;
  as_dict <- tuple2dict parsed ;;
  strings2utf8 as_dict.
End Line2dict.

(** ** The store: containers as mutable objects

    To state that the functions do not mutate their argument, the containers
    are objects in a store.  A list or a dict is held by its address; scalars
    and tuples are immutable and held by value (a tuple may hold addresses). *)

Unset Elimination Schemes.
Inductive hval : Type :=
| HNone
| HBool (b : bool)
| HInt (n : Z)
| HStr (s : text)
| HBytes (b : bytes)
| HObj (id : N)
| HTuple (items : list hval)
| HRef (a : nat).
Set Elimination Schemes.

Inductive obj : Type :=
| OList (items : list hval)
| ODict (items : list (hval * hval)).

(** The store: the object of address [a] is [h !! a]; a new object takes the
    next address. *)
Abbreviation heap := (list obj).

(** [hash(v)]: an address holds a list or a dict, which is unhashable. *)
Fixpoint hashable_h (v : hval) : bool :=
  match v with
  | HRef _ => false
  | HTuple items => forallb hashable_h items
  | _ => true
  end.

(** [a == b] between hashable values, as [key_eqb]. *)
Fixpoint key_eqb_h (a b : hval) : bool :=
  match a, b with
  | HNone, HNone => true
  | HBool x, HBool y => Bool.eqb x y
  | HBool x, HInt n => Z.eqb (Z.b2z x) n
  | HInt n, HBool x => Z.eqb n (Z.b2z x)
  | HInt m, HInt n => Z.eqb m n
  | HStr s, HStr t => text_eqb s t
  | HBytes s, HBytes t => bytes_eqb s t
  | HTuple xs, HTuple ys =>
      (fix all2 (xs ys : list hval) : bool :=
         match xs, ys with
         | [], [] => true
         | x :: xs', y :: ys' => key_eqb_h x y && all2 xs' ys'
         | _, _ => false
         end) xs ys
  | HObj i, HObj j => N.eqb i j
  | _, _ => false
  end.

Fixpoint dict_store_h (d : list (hval * hval)) (k v : hval) : list (hval * hval) :=
  match d with
  | [] => [(k, v)]
  | (k0, v0) :: rest =>
      if key_eqb_h k0 k then (k0, v) :: rest
      else (k0, v0) :: dict_store_h rest k v
  end.

(** A step of a program on the store: the store after it and what it returned
    or raised; [None] when the program is out of fuel or reads an address
    that holds no object of the expected class. *)
Definition run (A : Type) : Type := heap -> option (heap * result A).

(** [d[k] = v] for the dict at address [a] *)
Definition setitem_h (a : nat) (k v : hval) : run unit :=
  fun h =>
    if hashable_h k then
      match h !! a with
      | Some (ODict d) => Some (<[a := ODict (dict_store_h d k v)]> h, Ok tt)
      | _ => None
      end
    else Some (h, Raise TypeError).

(** [l.append(v)] for the list at address [a] *)
Definition append_h (a : nat) (v : hval) : run unit :=
  fun h =>
    match h !! a with
    | Some (OList l) => Some (<[a := OList (l ++ [v])]> h, Ok tt)
    | _ => None
    end.

(** A new object, at the next address. *)
Definition alloc_h (o : obj) : run nat :=
  fun h => Some (h ++ [o], Ok (length h)).

Section HeapComprehensions.
Variable f : hval -> run hval.

(** [[f(v) for v in items]]: the new list is at [new], filled in order. *)
Fixpoint list_comp_h (new : nat) (items : list hval) : run unit :=
  fun h =>
    match items with
    | [] => Some (h, Ok tt)
    | v :: rest =>
        match f v h with
        | Some (h1, Ok v') =>
            match append_h new v' h1 with
            | Some (h2, Ok _) => list_comp_h new rest h2
            | other => other
            end
        | Some (h1, Raise e) => Some (h1, Raise e)
        | None => None
        end
    end.

(** [tuple(f(v) for v in items)]: the elements, for a tuple made at the
    end. *)
Fixpoint tuple_gen_h (items : list hval) : run (list hval) :=
  fun h =>
    match items with
    | [] => Some (h, Ok [])
    | v :: rest =>
        match f v h with
        | Some (h1, Ok v') =>
            match tuple_gen_h rest h1 with
            | Some (h2, Ok rest') => Some (h2, Ok (v' :: rest'))
            | other => other
            end
        | Some (h1, Raise e) => Some (h1, Raise e)
        | None => None
        end
    end.

(** [{f(k): f(v) for k, v in items}]: the new dict is at [new]. *)
Fixpoint dict_comp_h (new : nat) (items : list (hval * hval)) : run unit :=
  fun h =>
    match items with
    | [] => Some (h, Ok tt)
    | (k, v) :: rest =>
        match f k h with
        | Some (h1, Ok k') =>
            match f v h1 with
            | Some (h2, Ok v') =>
                match setitem_h new k' v' h2 with
                | Some (h3, Ok _) => dict_comp_h new rest h3
                | other => other
                end
            | Some (h2, Raise e) => Some (h2, Raise e)
            | None => None
            end
        | Some (h1, Raise e) => Some (h1, Raise e)
        | None => None
        end
    end.
End HeapComprehensions.

(** [strings2utf8] on the store.  [fuel] bounds the depth of the calls: a
    container that holds itself has no finite depth.  The entries of the
    argument are read when the comprehension starts; the new container is
    allocated empty and filled by stores and appends, as the interpreter
    does. *)
Fixpoint strings2utf8_h (fuel : nat) (data : hval) : run hval :=
  fun h =>
    match fuel with
    | O => None
    | S fuel' =>
        match data with
        | HRef a =>
            match h !! a with
            | Some (ODict items) =>
                let new := length h in
                match dict_comp_h (strings2utf8_h fuel') new items (h ++ [ODict []]) with
                | Some (h', Ok _) => Some (h', Ok (HRef new))
                | Some (h', Raise e) => Some (h', Raise e)
                | None => None
                end
            | Some (OList items) =>
                let new := length h in
                match list_comp_h (strings2utf8_h fuel') new items (h ++ [OList []]) with
                | Some (h', Ok _) => Some (h', Ok (HRef new))
                | Some (h', Raise e) => Some (h', Raise e)
                | None => None
                end
            | None => None
            end
        | HTuple items =>
            match tuple_gen_h (strings2utf8_h fuel') items h with
            | Some (h', Ok items') => Some (h', Ok (HTuple items'))
            | Some (h', Raise e) => Some (h', Raise e)
            | None => None
            end
        | HStr s => Some (h, b <- encode_utf8 s ;; Ok (HBytes b))
        | _ => Some (h, Ok data)
        end
    end.

(** A namedtuple whose values are held as in the store. *)
Record namedtuple_h : Type := {
  class_name_h : text;
  fields_h : list text;
  values_h : list hval
}.

(** [d.update(pairs)] for the dict at address [a] *)
Fixpoint update_h (a : nat) (pairs : list (hval * hval)) : run unit :=
  fun h =>
    match pairs with
    | [] => Some (h, Ok tt)
    | (k, v) :: rest =>
        match setitem_h a k v h with
        | Some (h1, Ok _) => update_h a rest h1
        | other => other
        end
    end.

(** [tuple2dict] on the store: [data._asdict()] makes a dict of the fields,
    [dict(...)] a second one with the same entries, and ['type'] is stored in
    the second. *)
Definition tuple2dict_h (data : namedtuple_h) : run hval :=
  fun h =>
    let fields_dict := length h in
    match update_h fields_dict
            (combine (map HStr (fields_h data)) (values_h data))
            (h ++ [ODict []]) with
    | Some (h1, Ok _) =>
        match h1 !! fields_dict with
        | Some (ODict entries) =>
            let result := length h1 in
            match update_h result entries (h1 ++ [ODict []]) with
            | Some (h2, Ok _) =>
                match setitem_h result (HStr (str_lit "type"))
                        (HStr (class_name_h data)) h2 with
                | Some (h3, Ok _) => Some (h3, Ok (HRef result))
                | Some (h3, Raise e) => Some (h3, Raise e)
                | None => None
                end
            | Some (h2, Raise e) => Some (h2, Raise e)
            | None => None
            end
        | _ => None
        end
    | Some (h1, Raise e) => Some (h1, Raise e)
    | None => None
    end.

(** ** Well-formed values *)

(** No key of [ks] is equal (as a dict key) to a later one. *)
Fixpoint distinct_keys (ks : list pyval) : bool :=
  match ks with
  | [] => true
  | k :: rest => forallb (fun k' => negb (key_eqb k k')) rest && distinct_keys rest
  end.

(** The values that exist in Python: the code points of a [str] are in range,
    the keys of a dict are hashable and pairwise different. *)
Fixpoint well_formed (v : pyval) : bool :=
  match v with
  | PStr s => forallb is_code_point s
  | PList items | PTuple items => forallb well_formed items
  | PDict items =>
      forallb (fun kv => let '(k, x) := kv in
                         well_formed k && hashable k && well_formed x) items
      && distinct_keys (map fst items)
  | _ => true
  end.

(** Every text leaf can be encoded: it holds no surrogate code point. *)
Fixpoint encodable (v : pyval) : bool :=
  match v with
  | PStr s => forallb (fun c => negb (is_surrogate c)) s
  | PList items | PTuple items => forallb encodable items
  | PDict items =>
      forallb (fun kv => let '(k, x) := kv in encodable k && encodable x) items
  | _ => true
  end.

(** No text leaf anywhere, keys included. *)
Fixpoint no_text (v : pyval) : bool :=
  match v with
  | PStr _ => false
  | PList items | PTuple items => forallb no_text items
  | PDict items =>
      forallb (fun kv => let '(k, x) := kv in no_text k && no_text x) items
  | _ => true
  end.

(** In every dict inside [v], the keys as [strings2utf8] encodes them are
    still pairwise different. *)
Fixpoint keys_stay_distinct (v : pyval) : bool :=
  match v with
  | PList items | PTuple items => forallb keys_stay_distinct items
  | PDict items =>
      forallb (fun kv => let '(k, x) := kv in
                         keys_stay_distinct k && keys_stay_distinct x) items
      && match list_comp strings2utf8 (map fst items) with
         | Ok ks => distinct_keys ks
         | Raise _ => true
         end
  | _ => true
  end.

(** A well-formed namedtuple: one value per field, no field name twice (the
    [namedtuple] factory refuses duplicates). *)
Definition well_formed_nt (data : namedtuple) : Prop :=
  length (fields data) = length (values data) /\ NoDup (fields data).

(** [encoded_as x y]: [y] has the shape of [x], with each text leaf of [x]
    replaced by its UTF-8 octets and every other leaf the same. *)
Unset Elimination Schemes.
Inductive encoded_as : pyval -> pyval -> Prop :=
| enc_none : encoded_as PNone PNone
| enc_bool b : encoded_as (PBool b) (PBool b)
| enc_int n : encoded_as (PInt n) (PInt n)
| enc_bytes b : encoded_as (PBytes b) (PBytes b)
| enc_obj i : encoded_as (PObj i) (PObj i)
| enc_str s b : encode_utf8 s = Ok b -> encoded_as (PStr s) (PBytes b)
| enc_list xs ys : Forall2 encoded_as xs ys -> encoded_as (PList xs) (PList ys)
| enc_tuple xs ys : Forall2 encoded_as xs ys -> encoded_as (PTuple xs) (PTuple ys)
| enc_dict xs ys :
    Forall2 (fun kv kv' => encoded_as (fst kv) (fst kv') /\
                           encoded_as (snd kv) (snd kv')) xs ys ->
    encoded_as (PDict xs) (PDict ys).
Set Elimination Schemes.

(** ** Induction on values *)

Section PyvalInd.
Variable P : pyval -> Prop.
Hypothesis Cnone : P PNone.
Hypothesis Cbool : forall b, P (PBool b).
Hypothesis Cint : forall n, P (PInt n).
Hypothesis Cstr : forall s, P (PStr s).
Hypothesis Cbytes : forall b, P (PBytes b).
Hypothesis Clist : forall items, Forall P items -> P (PList items).
Hypothesis Ctuple : forall items, Forall P items -> P (PTuple items).
Hypothesis Cdict : forall items,
    Forall (fun kv => P (fst kv) /\ P (snd kv)) items -> P (PDict items).
Hypothesis Cobj : forall i, P (PObj i).

Fixpoint pyval_ind (v : pyval) : P v :=
  match v with
  | PNone => Cnone
  | PBool b => Cbool b
  | PInt n => Cint n
  | PStr s => Cstr s
  | PBytes b => Cbytes b
  | PList items =>
      Clist items
        ((fix all (l : list pyval) : Forall P l :=
            match l with
            | [] => List.Forall_nil P
            | x :: l' => List.Forall_cons P x l' (pyval_ind x) (all l')
            end) items)
  | PTuple items =>
      Ctuple items
        ((fix all (l : list pyval) : Forall P l :=
            match l with
            | [] => List.Forall_nil P
            | x :: l' => List.Forall_cons P x l' (pyval_ind x) (all l')
            end) items)
  | PDict items =>
      Cdict items
        ((fix all (l : list (pyval * pyval))
            : Forall (fun kv => P (fst kv) /\ P (snd kv)) l :=
            match l with
            | [] => List.Forall_nil _
            | (k, x) :: l' =>
                List.Forall_cons (fun kv => P (fst kv) /\ P (snd kv)) (k, x) l'
                  (conj (pyval_ind k) (pyval_ind x)) (all l')
            end) items)
  | PObj i => Cobj i
  end.
End PyvalInd.

(** ** The error monad *)

Lemma bind_ok {A B : Type} (c : result A) (k : A -> result B) (b : B) :
  bind c k = Ok b <-> exists a, c = Ok a /\ k a = Ok b.
Proof.
  destruct c as [a|e]; simpl; split.
  - intros H. exists a. auto.
  - intros (a' & Ha & Hk). congruence.
  - discriminate.
  - intros (a' & Ha & _). discriminate.
Qed.

Lemma bind_raise {A B : Type} (c : result A) (k : A -> result B) (e : exn) :
  bind c k = Raise e <-> c = Raise e \/ exists a, c = Ok a /\ k a = Raise e.
Proof.
  destruct c as [a|e']; simpl; split.
  - intros H. right. exists a. auto.
  - intros [H | (a' & Ha & Hk)]; congruence.
  - intros H. left. congruence.
  - intros [H | (a' & Ha & _)]; [congruence | discriminate].
Qed.

(** Splits a hypothesis [bind c k = Ok b] into its two steps. *)
Ltac bind_inv H :=
  let a := fresh "a" in
  let Ha := fresh "Ha" in
  apply bind_ok in H; destruct H as (a & Ha & H).

(** ** The codec *)

Definition encodable_code_point (c : N) : bool :=
  is_code_point c && negb (is_surrogate c).

Lemma utf8_code_point_some (c : N) :
  encodable_code_point c = true <-> exists bs, utf8_code_point c = Some bs.
Proof.
  unfold encodable_code_point, utf8_code_point, is_code_point, is_surrogate.
  destruct (N.ltb_spec c 0x80), (N.ltb_spec c 0x800), (N.ltb_spec c 0x10000),
    (N.ltb_spec c 0x110000), (N.leb_spec 0xD800 c), (N.leb_spec c 0xDFFF);
    simpl; try lia; split; eauto; try discriminate;
    intros [bs Hbs]; discriminate.
Qed.

Lemma utf8_from_ok (whole : text) (s : text) (pos : nat) :
  forallb encodable_code_point s = true <->
  exists b, utf8_from whole pos s = Ok b.
Proof.
  revert pos. induction s as [|c s IH]; intros pos; simpl.
  - split; eauto.
  - rewrite andb_true_iff, utf8_code_point_some, (IH (S pos)). split.
    + intros [[bs Hbs] [tl Htl]]. rewrite Hbs, Htl. simpl. eauto.
    + intros [b Hb]. destruct (utf8_code_point c) as [bs|]; [|discriminate].
      bind_inv Hb. eauto.
Qed.

Lemma encode_utf8_ok (s : text) :
  forallb encodable_code_point s = true <-> exists b, encode_utf8 s = Ok b.
Proof. apply utf8_from_ok. Qed.

(** The only exception of the codec is [UnicodeEncodeError]. *)
Lemma utf8_from_raise (whole s : text) (pos : nat) (e : exn) :
  utf8_from whole pos s = Raise e ->
  exists start, e = UnicodeEncodeError whole start.
Proof.
  revert pos. induction s as [|c s IH]; intros pos; simpl; [discriminate|].
  destruct (utf8_code_point c) as [bs|].
  - intros H. apply bind_raise in H. destruct H as [H | (a & _ & H)].
    + eapply IH, H.
    + discriminate.
  - intros H. injection H as <-. eauto.
Qed.

(** ** Comprehensions *)

Lemma list_comp_ok (f : pyval -> result pyval) (xs ys : list pyval) :
  list_comp f xs = Ok ys <-> Forall2 (fun x y => f x = Ok y) xs ys.
Proof.
  revert ys. induction xs as [|x xs IH]; intros ys; simpl.
  - split.
    + intros H. injection H as <-. constructor.
    + intros H. inversion H. reflexivity.
  - split.
    + intros H. bind_inv H. bind_inv H. injection H as <-.
      constructor; [assumption | apply IH; assumption].
    + intros H. inversion H as [|? y ? ys' Hx Hxs]; subst.
      rewrite Hx. simpl. apply IH in Hxs. rewrite Hxs. reflexivity.
Qed.

(** The stores that a dict comprehension or [dict.update] performs. *)
Definition store_all (acc : dict_items) (pairs : list (pyval * pyval)) : dict_items :=
  fold_left (fun d kv => dict_store d (fst kv) (snd kv)) pairs acc.

Definition entry_rel (R : pyval -> pyval -> Prop) (kv kv' : pyval * pyval) : Prop :=
  R (fst kv) (fst kv') /\ R (snd kv) (snd kv').

Lemma dict_comp_ok (f : pyval -> result pyval) (items acc d : dict_items) :
  dict_comp f items acc = Ok d <->
  exists pairs,
    Forall2 (entry_rel (fun x y => f x = Ok y)) items pairs /\
    forallb (fun kv => hashable (fst kv)) pairs = true /\
    d = store_all acc pairs.
Proof.
  revert acc d. induction items as [|[k v] items IH]; intros acc d; simpl.
  - split.
    + intros H. injection H as <-. exists []. repeat split. constructor.
    + intros (pairs & HF & _ & ->). inversion HF. reflexivity.
  - split.
    + intros H. bind_inv H. bind_inv H. bind_inv H.
      unfold dict_setitem in Ha1.
      destruct (hashable a) eqn:Hh; [|discriminate]. injection Ha1 as <-.
      apply IH in H. destruct H as (pairs & HF & Hhs & ->).
      exists ((a, a0) :: pairs). repeat split.
      * constructor; [split; assumption | assumption].
      * simpl. rewrite Hh. exact Hhs.
    + intros (pairs & HF & Hhs & ->).
      inversion HF as [|? [k' v'] ? pairs' [Hk Hv] HF']; subst.
      simpl in Hk, Hv, Hhs. apply andb_true_iff in Hhs. destruct Hhs as [Hh Hhs].
      rewrite Hk, Hv. simpl. unfold dict_setitem. rewrite Hh. simpl.
      apply IH. exists pairs'. auto.
Qed.

Lemma dict_update_ok (acc : dict_items) (pairs : list (pyval * pyval)) :
  forallb (fun kv => hashable (fst kv)) pairs = true ->
  dict_update acc pairs = Ok (store_all acc pairs).
Proof.
  revert acc. induction pairs as [|[k v] pairs IH]; intros acc H; simpl in *.
  - reflexivity.
  - apply andb_true_iff in H. destruct H as [Hk H].
    unfold dict_setitem. rewrite Hk. simpl. apply IH, H.
Qed.

(** ** Dict stores *)

Lemma forallb_true_Forall {A : Type} (p : A -> bool) (l : list A) :
  forallb p l = true <-> Forall (fun x => p x = true) l.
Proof.
  induction l as [|x l IH]; simpl.
  - split; [constructor | reflexivity].
  - rewrite andb_true_iff, IH. split.
    + intros [Hx Hl]. constructor; assumption.
    + intros H. inversion H; subst. split; assumption.
Qed.

(** No key of [ks] is equal to [k]. *)
Definition fresh_key (ks : list pyval) (k : pyval) : bool :=
  forallb (fun k0 => negb (key_eqb k0 k)) ks.

Lemma distinct_keys_snoc (ks : list pyval) (k : pyval) :
  distinct_keys (ks ++ [k]) = distinct_keys ks && fresh_key ks k.
Proof.
  unfold fresh_key. induction ks as [|k0 ks IH]; simpl.
  - reflexivity.
  - rewrite forallb_app, IH. simpl.
    destruct (forallb (fun k' => negb (key_eqb k0 k')) ks), (key_eqb k0 k),
      (distinct_keys ks), (forallb (fun k1 => negb (key_eqb k1 k)) ks);
      reflexivity.
Qed.

Lemma distinct_keys_app (ks ks' : list pyval) :
  distinct_keys (ks ++ ks') = true ->
  distinct_keys ks = true /\ distinct_keys ks' = true.
Proof.
  induction ks as [|k0 ks IH]; simpl.
  - auto.
  - rewrite !andb_true_iff, forallb_app, andb_true_iff.
    intros [[H1 _] H2]. apply IH in H2. tauto.
Qed.

Lemma dict_store_fresh (d : dict_items) (k v : pyval) :
  fresh_key (dict_keys d) k = true -> dict_store d k v = d ++ [(k, v)].
Proof.
  unfold fresh_key, dict_keys. induction d as [|[k0 v0] d IH]; simpl.
  - reflexivity.
  - rewrite andb_true_iff, negb_true_iff. intros [-> H].
    rewrite IH by exact H. reflexivity.
Qed.

Lemma dict_store_stale (d : dict_items) (k v : pyval) :
  fresh_key (dict_keys d) k = false ->
  dict_keys (dict_store d k v) = dict_keys d.
Proof.
  unfold fresh_key, dict_keys. induction d as [|[k0 v0] d IH]; simpl.
  - discriminate.
  - destruct (key_eqb k0 k); simpl; [reflexivity|].
    intros H. rewrite IH by exact H. reflexivity.
Qed.

Lemma dict_store_keys (d : dict_items) (k v : pyval) :
  dict_keys (dict_store d k v) =
  if fresh_key (dict_keys d) k then dict_keys d ++ [k] else dict_keys d.
Proof.
  destruct (fresh_key (dict_keys d) k) eqn:Hf.
  - rewrite dict_store_fresh by exact Hf. unfold dict_keys.
    rewrite map_app. reflexivity.
  - apply dict_store_stale, Hf.
Qed.

Lemma dict_store_length (d : dict_items) (k v : pyval) :
  length (dict_store d k v) =
  if fresh_key (dict_keys d) k then S (length d) else length d.
Proof.
  rewrite <- !(length_map fst). fold (dict_keys (dict_store d k v)).
  fold (dict_keys d). rewrite dict_store_keys.
  destruct (fresh_key (dict_keys d) k); [|reflexivity].
  rewrite length_app. simpl. lia.
Qed.

Lemma dict_store_distinct (d : dict_items) (k v : pyval) :
  distinct_keys (dict_keys d) = true ->
  distinct_keys (dict_keys (dict_store d k v)) = true.
Proof.
  intros Hd. rewrite dict_store_keys.
  destruct (fresh_key (dict_keys d) k) eqn:Hf; [|exact Hd].
  rewrite distinct_keys_snoc, Hd, Hf. reflexivity.
Qed.

(** A store keeps a property that holds of the keys and of the values. *)
Lemma dict_store_Forall (A B : pyval -> Prop) (d : dict_items) (k v : pyval) :
  Forall (fun kv => A (fst kv) /\ B (snd kv)) d -> A k -> B v ->
  Forall (fun kv => A (fst kv) /\ B (snd kv)) (dict_store d k v).
Proof.
  intros Hd Hk Hv. induction d as [|[k0 v0] d IH]; simpl.
  - constructor; [split; assumption | constructor].
  - inversion Hd as [|? ? [Hk0 Hv0] Hd']; subst. simpl in *.
    destruct (key_eqb k0 k).
    + constructor; [split; assumption | assumption].
    + constructor; [split; assumption | apply IH; assumption].
Qed.

Lemma store_all_Forall (A B : pyval -> Prop) (pairs acc : dict_items) :
  Forall (fun kv => A (fst kv) /\ B (snd kv)) acc ->
  Forall (fun kv => A (fst kv) /\ B (snd kv)) pairs ->
  Forall (fun kv => A (fst kv) /\ B (snd kv)) (store_all acc pairs).
Proof.
  revert acc. induction pairs as [|[k v] pairs IH]; intros acc Hacc Hp; simpl.
  - exact Hacc.
  - inversion Hp as [|? ? [Hk Hv] Hp']; subst. simpl in *.
    apply IH; [|exact Hp']. apply dict_store_Forall; assumption.
Qed.

Lemma store_all_distinct (pairs acc : dict_items) :
  distinct_keys (dict_keys acc) = true ->
  distinct_keys (dict_keys (store_all acc pairs)) = true.
Proof.
  revert acc. induction pairs as [|[k v] pairs IH]; intros acc Hacc; simpl.
  - exact Hacc.
  - apply IH, dict_store_distinct, Hacc.
Qed.

(** When no key meets an equal one, the stores only append. *)
Lemma store_all_append (pairs acc : dict_items) :
  distinct_keys (dict_keys acc ++ dict_keys pairs) = true ->
  store_all acc pairs = acc ++ pairs.
Proof.
  revert acc. induction pairs as [|[k v] pairs IH]; intros acc H; simpl.
  - rewrite app_nil_r. reflexivity.
  - simpl in H.
    assert (Hsplit : dict_keys acc ++ k :: dict_keys pairs
                     = (dict_keys acc ++ [k]) ++ dict_keys pairs)
      by (rewrite <- app_assoc; reflexivity).
    rewrite Hsplit in H.
    destruct (distinct_keys_app _ _ H) as [H1 _].
    rewrite distinct_keys_snoc, andb_true_iff in H1. destruct H1 as [_ Hf].
    rewrite dict_store_fresh by exact Hf.
    rewrite IH.
    + rewrite <- app_assoc. reflexivity.
    + unfold dict_keys at 1. rewrite map_app. exact H.
Qed.


(** ** What [strings2utf8] returns *)

Lemma Forall2_transfer {A B : Type} (R : A -> B -> Prop) (Q : B -> Prop)
  (xs : list A) (ys : list B) :
  Forall2 R xs ys -> Forall (fun x => forall y, R x y -> Q y) xs -> Forall Q ys.
Proof.
  intros H. induction H as [|x y xs ys Hxy _ IH]; intros HF.
  - constructor.
  - inversion HF; subst. constructor; auto.
Qed.

Lemma entries_transfer (f : pyval -> result pyval) (Q : pyval -> Prop)
  (items pairs : dict_items) :
  Forall2 (entry_rel (fun x y => f x = Ok y)) items pairs ->
  Forall (fun kv => (forall y, f (fst kv) = Ok y -> Q y) /\
                    (forall y, f (snd kv) = Ok y -> Q y)) items ->
  Forall (fun kv => Q (fst kv) /\ Q (snd kv)) pairs.
Proof.
  intros H HF. eapply Forall2_transfer; [exact H|].
  eapply Forall_impl; [exact HF|].
  intros [k v] [Hk Hv] [k' v'] [Hk' Hv']. simpl in *. auto.
Qed.

(** Inversion of a successful call, by the kind of the argument. *)
Lemma strings2utf8_list_ok (items : list pyval) (y : pyval) :
  strings2utf8 (PList items) = Ok y ->
  exists ys, y = PList ys /\ Forall2 (fun x y => strings2utf8 x = Ok y) items ys.
Proof.
  simpl. intros H. bind_inv H. injection H as <-.
  exists a. split; [reflexivity | apply list_comp_ok; assumption].
Qed.

Lemma strings2utf8_tuple_ok (items : list pyval) (y : pyval) :
  strings2utf8 (PTuple items) = Ok y ->
  exists ys, y = PTuple ys /\ Forall2 (fun x y => strings2utf8 x = Ok y) items ys.
Proof.
  simpl. intros H. bind_inv H. injection H as <-.
  exists a. split; [reflexivity | apply list_comp_ok; assumption].
Qed.

Lemma strings2utf8_dict_ok (items : dict_items) (y : pyval) :
  strings2utf8 (PDict items) = Ok y ->
  exists pairs,
    Forall2 (entry_rel (fun x y => strings2utf8 x = Ok y)) items pairs /\
    forallb (fun kv => hashable (fst kv)) pairs = true /\
    y = PDict (store_all [] pairs).
Proof.
  simpl. intros H. bind_inv H. injection H as <-.
  apply dict_comp_ok in Ha. destruct Ha as (pairs & HF & Hh & ->).
  exists pairs. auto.
Qed.

(** The result is hashable exactly when the argument is. *)
Lemma strings2utf8_hashable (x : pyval) :
  forall y, strings2utf8 x = Ok y -> hashable y = hashable x.
Proof.
  induction x as [| | | | |items IH|items IH|items IH|] using pyval_ind;
    intros y H; try (injection H as <-; reflexivity).
  - simpl in H. bind_inv H. injection H as <-. reflexivity.
  - apply strings2utf8_list_ok in H. destruct H as (ys & -> & _). reflexivity.
  - apply strings2utf8_tuple_ok in H. destruct H as (ys & -> & HF). simpl.
    induction HF as [|x y xs ys Hxy HF IHF]; [reflexivity|].
    inversion IH; subst. simpl. f_equal; auto.
  - apply strings2utf8_dict_ok in H. destruct H as (pairs & _ & _ & ->).
    reflexivity.
Qed.

(** Whatever the argument, a result holds no text and is a well-formed
    value. *)
Lemma strings2utf8_output (x : pyval) :
  forall y, strings2utf8 x = Ok y -> well_formed y = true /\ no_text y = true.
Proof.
  induction x as [| | | | |items IH|items IH|items IH|] using pyval_ind;
    intros y H; try (injection H as <-; split; reflexivity).
  - simpl in H. bind_inv H. injection H as <-. split; reflexivity.
  - apply strings2utf8_list_ok in H. destruct H as (ys & -> & HF). simpl.
    pose proof (Forall2_transfer _ _ _ _ HF IH) as Hys.
    rewrite !forallb_true_Forall. split.
    + eapply Forall_impl; [exact Hys|]. intros ? [? ?]. assumption.
    + eapply Forall_impl; [exact Hys|]. intros ? [? ?]. assumption.
  - apply strings2utf8_tuple_ok in H. destruct H as (ys & -> & HF). simpl.
    pose proof (Forall2_transfer _ _ _ _ HF IH) as Hys.
    rewrite !forallb_true_Forall. split.
    + eapply Forall_impl; [exact Hys|]. intros ? [? ?]. assumption.
    + eapply Forall_impl; [exact Hys|]. intros ? [? ?]. assumption.
  - apply strings2utf8_dict_ok in H. destruct H as (pairs & HF & Hh & ->).
    pose proof (entries_transfer _ _ _ _ HF IH) as Hp.
    apply forallb_true_Forall in Hh.
    assert (Hall : Forall
              (fun kv =>
                 (well_formed (fst kv) = true /\ hashable (fst kv) = true /\
                  no_text (fst kv) = true) /\
                 (well_formed (snd kv) = true /\ no_text (snd kv) = true))
              (store_all [] pairs)).
    { apply (store_all_Forall
               (fun k => well_formed k = true /\ hashable k = true /\
                         no_text k = true)
               (fun v => well_formed v = true /\ no_text v = true));
        [constructor|].
      clear HF. induction Hp as [|[k v] pairs [[? ?] [? ?]] _ IHp];
        [constructor|].
      inversion Hh; subst. constructor; [simpl in *; tauto | auto]. }
    simpl. rewrite andb_true_iff, !forallb_true_Forall. repeat split.
    + eapply Forall_impl; [exact Hall|].
      intros [k v] [(Hk & Hhk & _) [Hv _]]. simpl in *.
      rewrite Hk, Hhk, Hv. reflexivity.
    + apply (store_all_distinct pairs []). reflexivity.
    + eapply Forall_impl; [exact Hall|].
      intros [k v] [(_ & _ & Hk) [_ Hv]]. simpl in *.
      rewrite Hk, Hv. reflexivity.
Qed.

(** ** When [strings2utf8] returns *)

Lemma encodable_text (s : text) :
  forallb encodable_code_point s =
  forallb is_code_point s && forallb (fun c => negb (is_surrogate c)) s.
Proof.
  induction s as [|c s IH]; simpl; [reflexivity|].
  rewrite IH. unfold encodable_code_point.
  destruct (is_code_point c), (is_surrogate c), (forallb is_code_point s);
    reflexivity.
Qed.

Lemma Forall_exists_Forall2 {A B : Type} (R : A -> B -> Prop) (xs : list A) :
  Forall (fun x => exists y, R x y) xs -> exists ys, Forall2 R xs ys.
Proof.
  induction 1 as [|x xs [y Hy] _ [ys Hys]].
  - exists []. constructor.
  - exists (y :: ys). constructor; assumption.
Qed.

(** On a well-formed value, [strings2utf8] returns exactly when every text
    leaf is free of surrogates. *)
Lemma strings2utf8_returns_iff (x : pyval) :
  well_formed x = true ->
  (encodable x = true <-> exists y, strings2utf8 x = Ok y).
Proof.
  induction x as [| | | s | |items IH|items IH|items IH|] using pyval_ind;
    intros Hwf; try (split; [intros _; eexists; reflexivity | reflexivity]).
  - (* str *)
    simpl in Hwf. simpl.
    assert (Heq : forallb (fun c => negb (is_surrogate c)) s
                  = forallb encodable_code_point s)
      by (rewrite encodable_text, Hwf; reflexivity).
    rewrite Heq, encode_utf8_ok. split.
    + intros [b ->]. simpl. eauto.
    + intros [y H]. bind_inv H. eauto.
  - (* list *)
    simpl in Hwf. rewrite forallb_true_Forall in Hwf.
    simpl encodable. rewrite forallb_true_Forall. split.
    + intros Henc.
      assert (Hex : Forall (fun x => exists y, strings2utf8 x = Ok y) items).
      { clear -IH Hwf Henc. induction IH; [constructor|].
        inversion Hwf; inversion Henc; subst. constructor; [|auto].
        apply H; assumption. }
      apply Forall_exists_Forall2 in Hex. destruct Hex as [ys Hys].
      apply list_comp_ok in Hys. simpl. rewrite Hys. simpl. eauto.
    + intros [y H]. apply strings2utf8_list_ok in H.
      destruct H as (ys & _ & HF). clear -IH Hwf HF.
      revert ys HF. induction IH; intros ys HF; [constructor|].
      inversion Hwf; inversion HF; subst. constructor; [|eauto].
      apply H; eauto.
  - (* tuple *)
    simpl in Hwf. rewrite forallb_true_Forall in Hwf.
    simpl encodable. rewrite forallb_true_Forall. split.
    + intros Henc.
      assert (Hex : Forall (fun x => exists y, strings2utf8 x = Ok y) items).
      { clear -IH Hwf Henc. induction IH; [constructor|].
        inversion Hwf; inversion Henc; subst. constructor; [|auto].
        apply H; assumption. }
      apply Forall_exists_Forall2 in Hex. destruct Hex as [ys Hys].
      apply list_comp_ok in Hys. simpl. rewrite Hys. simpl. eauto.
    + intros [y H]. apply strings2utf8_tuple_ok in H.
      destruct H as (ys & _ & HF). clear -IH Hwf HF.
      revert ys HF. induction IH; intros ys HF; [constructor|].
      inversion Hwf; inversion HF; subst. constructor; [|eauto].
      apply H; eauto.
  - (* dict *)
    simpl in Hwf. apply andb_true_iff in Hwf. destruct Hwf as [Hwf _].
    rewrite forallb_true_Forall in Hwf.
    simpl encodable. rewrite forallb_true_Forall. split.
    + intros Henc.
      assert (Hex : Forall
                (fun kv => exists kv',
                     entry_rel (fun x y => strings2utf8 x = Ok y) kv kv' /\
                     hashable (fst kv') = true) items).
      { clear -IH Hwf Henc. induction IH as [|[k v] items [IHk IHv] _ IHitems];
          [constructor|].
        inversion Hwf as [|? ? Hkv Hwf']; inversion Henc as [|? ? Hekv Henc'];
          subst. constructor; [|auto].
        simpl in *. apply andb_true_iff in Hkv. destruct Hkv as [Hkv Hwv].
        apply andb_true_iff in Hkv. destruct Hkv as [Hwk Hhk].
        apply andb_true_iff in Hekv. destruct Hekv as [Hek Hev].
        destruct (proj1 (IHk Hwk) Hek) as [k' Hk'].
        destruct (proj1 (IHv Hwv) Hev) as [v' Hv'].
        exists (k', v'). split; [split; assumption|]. simpl.
        rewrite (strings2utf8_hashable k k' Hk'). exact Hhk. }
      apply Forall_exists_Forall2 in Hex. destruct Hex as [pairs Hp].
      assert (Hok : dict_comp strings2utf8 items [] = Ok (store_all [] pairs)).
      { apply dict_comp_ok. exists pairs. repeat split.
        - eapply Forall2_impl; [exact Hp|]. intros ? ? [? _]. assumption.
        - apply forallb_true_Forall. clear -Hp.
          induction Hp as [|? ? ? ? [_ ?] _ ?]; constructor; assumption. }
      simpl. rewrite Hok. simpl. eauto.
    + intros [y H]. apply strings2utf8_dict_ok in H.
      destruct H as (pairs & HF & _ & _). clear -IH Hwf HF.
      revert pairs HF.
      induction IH as [|[k v] items [IHk IHv] _ IHitems]; intros pairs HF;
        [constructor|].
      inversion Hwf as [|? ? Hkv Hwf']; inversion HF as [|? [k' v'] ? ? [Hk Hv] HF'];
        subst. constructor; [|eauto].
      simpl in *. apply andb_true_iff in Hkv. destruct Hkv as [Hkv Hwv].
      apply andb_true_iff in Hkv. destruct Hkv as [Hwk Hhk].
      apply andb_true_iff. split; [apply IHk | apply IHv]; eauto.
Qed.

Lemma list_comp_raise (f : pyval -> result pyval) (xs : list pyval) (e : exn) :
  list_comp f xs = Raise e -> exists x, In x xs /\ f x = Raise e.
Proof.
  induction xs as [|x xs IH]; simpl; [discriminate|].
  intros H. apply bind_raise in H. destruct H as [H | (y & Hy & H)].
  - exists x. auto.
  - apply bind_raise in H. destruct H as [H | (ys & _ & H)]; [|discriminate].
    destruct (IH H) as (x' & Hin & Hx'). exists x'. auto.
Qed.

Lemma dict_comp_raise (f : pyval -> result pyval) (items acc : dict_items)
  (e : exn) :
  dict_comp f items acc = Raise e ->
  exists k v, In (k, v) items /\
              (f k = Raise e \/ f v = Raise e \/
               exists k', f k = Ok k' /\ hashable k' = false /\ e = TypeError).
Proof.
  revert acc. induction items as [|[k v] items IH]; intros acc; simpl;
    [discriminate|].
  intros H. apply bind_raise in H. destruct H as [H | (k' & Hk' & H)].
  { exists k, v. auto. }
  apply bind_raise in H. destruct H as [H | (v' & Hv' & H)].
  { exists k, v. auto. }
  apply bind_raise in H. destruct H as [H | (acc' & _ & H)].
  - exists k, v. split; [left; reflexivity|]. right. right. exists k'.
    unfold dict_setitem in H. destruct (hashable k'); [discriminate|].
    injection H as <-. auto.
  - destruct (IH _ H) as (k0 & v0 & Hin & Hcase). exists k0, v0. auto.
Qed.

(** On a well-formed value, the only exception is the one of the codec. *)
Lemma strings2utf8_raises (x : pyval) :
  well_formed x = true ->
  forall e, strings2utf8 x = Raise e ->
            exists object start, e = UnicodeEncodeError object start.
Proof.
  induction x as [| | | s | |items IH|items IH|items IH|] using pyval_ind;
    intros Hwf e H; try discriminate H.
  - simpl in H. apply bind_raise in H. destruct H as [H | (b & _ & H)];
      [|discriminate]. apply utf8_from_raise in H. destruct H as [start ->].
    eauto.
  - simpl in Hwf, H. apply bind_raise in H.
    destruct H as [H | (l & _ & H)]; [|discriminate].
    apply list_comp_raise in H. destruct H as (x & Hin & Hx).
    rewrite forallb_true_Forall, List.Forall_forall in Hwf.
    rewrite List.Forall_forall in IH. eapply IH; eauto.
  - simpl in Hwf, H. apply bind_raise in H.
    destruct H as [H | (l & _ & H)]; [|discriminate].
    apply list_comp_raise in H. destruct H as (x & Hin & Hx).
    rewrite forallb_true_Forall, List.Forall_forall in Hwf.
    rewrite List.Forall_forall in IH. eapply IH; eauto.
  - simpl in Hwf, H. apply andb_true_iff in Hwf. destruct Hwf as [Hwf _].
    apply bind_raise in H. destruct H as [H | (d & _ & H)]; [|discriminate].
    apply dict_comp_raise in H. destruct H as (k & v & Hin & Hcase).
    rewrite forallb_true_Forall, List.Forall_forall in Hwf.
    rewrite List.Forall_forall in IH.
    specialize (Hwf _ Hin). specialize (IH _ Hin). simpl in Hwf, IH.
    apply andb_true_iff in Hwf. destruct Hwf as [Hwf Hwv].
    apply andb_true_iff in Hwf. destruct Hwf as [Hwk Hhk].
    destruct IH as [IHk IHv].
    destruct Hcase as [Hk | [Hv | (k' & Hk' & Hh & _)]]; eauto.
    rewrite (strings2utf8_hashable k k' Hk') in Hh. congruence.
Qed.

(** A well-formed value without text is returned as it is. *)
Lemma strings2utf8_no_text (x : pyval) :
  well_formed x = true -> no_text x = true -> strings2utf8 x = Ok x.
Proof.
  induction x as [| | | s | |items IH|items IH|items IH|] using pyval_ind;
    intros Hwf Hnt; try reflexivity; try discriminate.
  - simpl in *. rewrite forallb_true_Forall in Hwf, Hnt.
    assert (H : list_comp strings2utf8 items = Ok items).
    { apply list_comp_ok. clear -IH Hwf Hnt.
      induction IH; [constructor|]. inversion Hwf; inversion Hnt; subst.
      constructor; auto. }
    rewrite H. reflexivity.
  - simpl in *. rewrite forallb_true_Forall in Hwf, Hnt.
    assert (H : list_comp strings2utf8 items = Ok items).
    { apply list_comp_ok. clear -IH Hwf Hnt.
      induction IH; [constructor|]. inversion Hwf; inversion Hnt; subst.
      constructor; auto. }
    rewrite H. reflexivity.
  - simpl in Hwf, Hnt. apply andb_true_iff in Hwf. destruct Hwf as [Hwf Hd].
    rewrite forallb_true_Forall in Hwf, Hnt.
    assert (H : dict_comp strings2utf8 items [] = Ok items).
    { apply dict_comp_ok. exists items. repeat split.
      - clear -IH Hwf Hnt.
        induction IH as [|[k v] items [IHk IHv] _ IHitems]; [constructor|].
        inversion Hwf as [|? ? Hkv Hwf']; inversion Hnt as [|? ? Hnkv Hnt'];
          subst. simpl in *.
        apply andb_true_iff in Hkv. destruct Hkv as [Hkv Hwv].
        apply andb_true_iff in Hkv. destruct Hkv as [Hwk Hhk].
        apply andb_true_iff in Hnkv. destruct Hnkv as [Hnk Hnv].
        constructor; [split; simpl; auto | auto].
      - apply forallb_true_Forall. eapply Forall_impl; [exact Hwf|].
        intros [k v] Hkv. simpl in *.
        apply andb_true_iff in Hkv. destruct Hkv as [Hkv _].
        apply andb_true_iff in Hkv. tauto.
      - symmetry. apply (store_all_append items []). exact Hd. }
    simpl. rewrite H. reflexivity.
Qed.

(** When the encoded keys of every dict stay distinct, a result has the shape
    of the argument. *)
Lemma strings2utf8_encoded_as (x : pyval) :
  forall y, strings2utf8 x = Ok y -> keys_stay_distinct x = true ->
            encoded_as x y.
Proof.
  induction x as [| | | s | |items IH|items IH|items IH|] using pyval_ind;
    intros y H Hk; try (injection H as <-; constructor).
  - simpl in H. bind_inv H. injection H as <-. constructor. assumption.
  - apply strings2utf8_list_ok in H. destruct H as (ys & -> & HF).
    constructor. simpl in Hk. rewrite forallb_true_Forall in Hk.
    clear -IH HF Hk. revert ys HF.
    induction IH; intros ys HF; inversion HF; inversion Hk; subst;
      constructor; auto.
  - apply strings2utf8_tuple_ok in H. destruct H as (ys & -> & HF).
    constructor. simpl in Hk. rewrite forallb_true_Forall in Hk.
    clear -IH HF Hk. revert ys HF.
    induction IH; intros ys HF; inversion HF; inversion Hk; subst;
      constructor; auto.
  - apply strings2utf8_dict_ok in H. destruct H as (pairs & HF & _ & ->).
    simpl in Hk. apply andb_true_iff in Hk. destruct Hk as [Hk Hd].
    assert (Hkeys : list_comp strings2utf8 (map fst items) = Ok (map fst pairs)).
    { apply list_comp_ok. clear -HF.
      induction HF as [|? ? ? ? [? _] _ ?]; simpl; constructor; assumption. }
    rewrite Hkeys in Hd.
    rewrite (store_all_append pairs []) by exact Hd. simpl.
    constructor. rewrite forallb_true_Forall in Hk.
    clear -IH HF Hk. revert pairs HF.
    induction IH as [|[k v] items [IHk IHv] _ IHitems]; intros pairs HF;
      inversion HF as [|? [k' v'] ? ? [Hk' Hv'] HF']; subst; [constructor|].
    inversion Hk as [|? ? Hkv Hk'']; subst. simpl in *.
    apply andb_true_iff in Hkv. destruct Hkv as [Hkk Hkv].
    constructor; [split; simpl; auto | auto].
Qed.

(** ** What [tuple2dict] returns *)

Definition type_key : pyval := PStr (str_lit "type").

(** The entries of [data._asdict()] *)
Definition field_items (data : namedtuple) : dict_items :=
  combine (map PStr (fields data)) (values data).

Lemma str_keys_hashable (names : list text) (vals : list pyval) :
  forallb (fun kv => hashable (fst kv)) (combine (map PStr names) vals) = true.
Proof.
  revert vals. induction names as [|f names IH]; intros [|v vals]; simpl; auto.
Qed.

Lemma store_all_hashable (pairs acc : dict_items) :
  forallb (fun kv => hashable (fst kv)) acc = true ->
  forallb (fun kv => hashable (fst kv)) pairs = true ->
  forallb (fun kv => hashable (fst kv)) (store_all acc pairs) = true.
Proof.
  rewrite !forallb_true_Forall. intros Hacc Hp.
  pose proof (store_all_Forall (fun k => hashable k = true) (fun _ => True)
                pairs acc) as H.
  eapply Forall_impl; [apply H|]; [| |intros ? [? _]; assumption].
  - eapply Forall_impl; [exact Hacc|]. simpl. auto.
  - eapply Forall_impl; [exact Hp|]. simpl. auto.
Qed.

(** [tuple2dict] never raises: it is the stores of the fields, then of
    ['type']. *)
Lemma tuple2dict_eq (data : namedtuple) :
  tuple2dict data =
  Ok (PDict (dict_store (store_all [] (store_all [] (field_items data)))
               type_key (PStr (class_name data)))).
Proof.
  unfold tuple2dict, asdict. fold (field_items data).
  rewrite dict_update_ok by apply str_keys_hashable. simpl.
  rewrite dict_update_ok
    by (apply store_all_hashable; [reflexivity | apply str_keys_hashable]).
  reflexivity.
Qed.

Lemma key_eqb_str (s t : text) : key_eqb (PStr s) (PStr t) = true <-> s = t.
Proof. simpl. unfold text_eqb. apply bool_decide_eq_true. Qed.

Lemma fresh_key_str (names : list text) (t : text) :
  fresh_key (map PStr names) (PStr t) = true <-> ~ In t names.
Proof.
  unfold fresh_key. induction names as [|f names IH]; cbn [map forallb].
  - simpl. tauto.
  - rewrite andb_true_iff, negb_true_iff, IH, <- not_true_iff_false, key_eqb_str.
    simpl. tauto.
Qed.

Lemma distinct_keys_str (names : list text) :
  NoDup names -> distinct_keys (map PStr names) = true.
Proof.
  induction 1 as [|f names Hf _ IH]; cbn [map distinct_keys]; [reflexivity|].
  rewrite IH, andb_true_r. apply forallb_true_Forall, List.Forall_forall.
  intros k Hk. apply in_map_iff in Hk. destruct Hk as (t & <- & Ht).
  apply negb_true_iff, not_true_iff_false. rewrite key_eqb_str.
  intros ->. apply Hf, list_elem_of_In, Ht.
Qed.

Lemma field_items_keys (data : namedtuple) :
  length (fields data) = length (values data) ->
  dict_keys (field_items data) = map PStr (fields data).
Proof.
  unfold field_items, dict_keys. destruct data as [name fs vs]. simpl.
  revert vs. induction fs as [|f fs IH]; intros [|v vs] H; simpl in *;
    try reflexivity; try discriminate.
  f_equal. apply IH. lia.
Qed.

(** On a well-formed namedtuple, the dict before the store of ['type'] holds
    the fields in order. *)
Lemma tuple2dict_fields (data : namedtuple) :
  well_formed_nt data ->
  tuple2dict data =
  Ok (PDict (dict_store (field_items data) type_key (PStr (class_name data)))).
Proof.
  intros [Hlen Hnd]. rewrite tuple2dict_eq.
  assert (Hd : distinct_keys (dict_keys (field_items data)) = true)
    by (rewrite field_items_keys by exact Hlen; apply distinct_keys_str, Hnd).
  rewrite (store_all_append (field_items data) []) by exact Hd. simpl.
  rewrite (store_all_append (field_items data) []) by exact Hd. reflexivity.
Qed.

Lemma dict_get_store_same (d : dict_items) (k v : pyval) :
  key_eqb k k = true -> dict_get (dict_store d k v) k = Some v.
Proof.
  intros Hk. induction d as [|[k0 v0] d IH]; simpl.
  - rewrite Hk. reflexivity.
  - destruct (key_eqb k0 k) eqn:H0; simpl; rewrite H0; [reflexivity | exact IH].
Qed.

(** Storing under a text key that is present replaces the value there. *)
Lemma dict_store_present (names : list text) (vals : list pyval) (t : text)
  (v : pyval) :
  NoDup names -> In t names -> length names = length vals ->
  dict_store (combine (map PStr names) vals) (PStr t) v =
  map (fun kv => if key_eqb (fst kv) (PStr t) then (fst kv, v) else kv)
      (combine (map PStr names) vals).
Proof.
  intros Hnd. revert vals.
  induction Hnd as [|f names Hf Hnd IH]; intros vals Hin Hlen; [destruct Hin|].
  destruct vals as [|v0 vals]; [discriminate|]. simpl in Hlen.
  cbn [map combine dict_store fst].
  destruct (key_eqb (PStr f) (PStr t)) eqn:Heq.
  - f_equal. apply key_eqb_str in Heq. subst f.
    assert (Hnone : forall vals',
               map (fun kv => if key_eqb (fst kv) (PStr t) then (fst kv, v) else kv)
                 (combine (map PStr names) vals')
               = combine (map PStr names) vals').
    { clear -Hf. induction names as [|g names IHn]; intros [|w vals'];
        try reflexivity. cbn [map combine fst].
      destruct (key_eqb (PStr g) (PStr t)) eqn:Hg.
      - apply key_eqb_str in Hg. subst g. exfalso. apply Hf. left.
      - f_equal. apply IHn. intros H. apply Hf. right. exact H. }
    symmetry. apply Hnone.
  - f_equal. apply IH; [|lia].
    destruct Hin as [->|Hin]; [|exact Hin].
    exfalso. apply not_true_iff_false in Heq. apply Heq, key_eqb_str.
    reflexivity.
Qed.

(** ** Key equality is an equivalence on hashable values *)

(** The representative of a key: [True] and [False] are the keys [1] and
    [0]. *)
Fixpoint key_norm (v : pyval) : pyval :=
  match v with
  | PBool b => PInt (Z.b2z b)
  | PTuple items => PTuple (map key_norm items)
  | _ => v
  end.

Lemma key_eqb_norm (a : pyval) :
  forall b, hashable a = true -> hashable b = true ->
            (key_eqb a b = true <-> key_norm a = key_norm b).
Proof.
  induction a as [| x | m | s | s |items IH|items IH|items IH| i] using pyval_ind;
    intros b Ha Hb; try discriminate Ha;
    destruct b as [| y | n | t | t | ys | ys | ys | j]; try discriminate Hb;
    simpl; try (split; [discriminate | intros H; discriminate H]).
  - tauto.
  - destruct x, y; simpl; split; congruence.
  - rewrite Z.eqb_eq. split; congruence.
  - rewrite Z.eqb_eq. split; congruence.
  - rewrite Z.eqb_eq. split; congruence.
  - unfold text_eqb. rewrite bool_decide_eq_true. split; congruence.
  - unfold bytes_eqb. rewrite bool_decide_eq_true. split; congruence.
  - simpl in Ha, Hb. rewrite forallb_true_Forall in Ha, Hb.
    assert (Hlists :
              (fix all2 (xs ys : list pyval) : bool :=
                 match xs, ys with
                 | [], [] => true
                 | x :: xs', y :: ys' => key_eqb x y && all2 xs' ys'
                 | _, _ => false
                 end) items ys = true <-> map key_norm items = map key_norm ys).
    { clear -IH Ha Hb. revert ys Hb.
      induction IH as [|x xs Hx _ IHxs]; intros [|y ys] Hb; simpl;
        try (split; intros H; (reflexivity || discriminate H)).
      inversion Ha; inversion Hb; subst.
      rewrite andb_true_iff, Hx, IHxs by assumption.
      split; [intros [-> ->]; reflexivity | intros H; injection H; auto]. }
    rewrite Hlists. split; congruence.
  - rewrite N.eqb_eq. split; congruence.
Qed.

Lemma key_eqb_refl (k : pyval) : hashable k = true -> key_eqb k k = true.
Proof. intros H. apply key_eqb_norm; auto. Qed.

Lemma key_eqb_trans_l (a b c : pyval) :
  hashable a = true -> hashable b = true -> hashable c = true ->
  key_eqb a b = true -> key_eqb a c = key_eqb b c.
Proof.
  intros Ha Hb Hc Hab. apply key_eqb_norm in Hab; [|assumption..].
  destruct (key_eqb b c) eqn:Hbc.
  - apply key_eqb_norm in Hbc; [|assumption..]. apply key_eqb_norm; congruence.
  - apply not_true_iff_false. intros Hac.
    apply key_eqb_norm in Hac; [|assumption..].
    apply not_true_iff_false in Hbc. apply Hbc, key_eqb_norm; congruence.
Qed.

Lemma key_eqb_sym (a b : pyval) :
  hashable a = true -> hashable b = true -> key_eqb a b = key_eqb b a.
Proof.
  intros Ha Hb. destruct (key_eqb b a) eqn:Hba.
  - apply key_eqb_norm in Hba; [|assumption..]. apply key_eqb_norm; congruence.
  - apply not_true_iff_false. intros Hab.
    apply key_eqb_norm in Hab; [|assumption..].
    apply not_true_iff_false in Hba. apply Hba, key_eqb_norm; congruence.
Qed.

(** The value that the stores of [pairs] leave under [k]: the one of the last
    pair whose key equals [k]. *)
Fixpoint last_value (pairs : dict_items) (k : pyval) : option pyval :=
  match pairs with
  | [] => None
  | (k0, v0) :: rest =>
      match last_value rest k with
      | Some v => Some v
      | None => if key_eqb k0 k then Some v0 else None
      end
  end.

Lemma dict_get_store (d : dict_items) (k1 v1 k : pyval) :
  forallb (fun kv => hashable (fst kv)) d = true ->
  hashable k1 = true -> hashable k = true ->
  dict_get (dict_store d k1 v1) k =
  if key_eqb k1 k then Some v1 else dict_get d k.
Proof.
  intros Hd Hk1 Hk. induction d as [|[k0 v0] d IH]; simpl.
  - reflexivity.
  - simpl in Hd. apply andb_true_iff in Hd. destruct Hd as [Hk0 Hd].
    destruct (key_eqb k0 k1) eqn:H01; simpl.
    + rewrite (key_eqb_trans_l k0 k1 k) by assumption.
      destruct (key_eqb k1 k); reflexivity.
    + rewrite (IH Hd). destruct (key_eqb k0 k) eqn:H0; [|reflexivity].
      destruct (key_eqb k1 k) eqn:H1; [|reflexivity].
      rewrite (key_eqb_sym k1 k) in H1 by assumption.
      rewrite (key_eqb_sym k0 k) in H0 by assumption.
      rewrite <- (key_eqb_trans_l k k0 k1), H1 in H01 by assumption.
      discriminate.
Qed.

Lemma dict_get_store_all (pairs acc : dict_items) (k : pyval) :
  forallb (fun kv => hashable (fst kv)) acc = true ->
  forallb (fun kv => hashable (fst kv)) pairs = true ->
  hashable k = true ->
  dict_get (store_all acc pairs) k =
  match last_value pairs k with
  | Some v => Some v
  | None => dict_get acc k
  end.
Proof.
  revert acc. induction pairs as [|[k1 v1] pairs IH]; intros acc Hacc Hp Hk.
  - reflexivity.
  - simpl in Hp. apply andb_true_iff in Hp. destruct Hp as [Hk1 Hp]. simpl.
    rewrite IH; try assumption.
    + destruct (last_value pairs k); [reflexivity|].
      rewrite dict_get_store by assumption.
      destruct (key_eqb k1 k); reflexivity.
    + apply (store_all_hashable [(k1, v1)] acc); [assumption|].
      simpl. rewrite Hk1. reflexivity.
Qed.

(** The keys after the stores are keys that were there or were stored. *)
Lemma store_all_keys_in (pairs acc : dict_items) (k : pyval) :
  In k (dict_keys (store_all acc pairs)) ->
  In k (dict_keys acc) \/ In k (dict_keys pairs).
Proof.
  revert acc. induction pairs as [|[k1 v1] pairs IH]; intros acc H; simpl in *.
  - left. exact H.
  - apply IH in H. destruct H as [H|H]; [|right; right; exact H].
    rewrite dict_store_keys in H.
    destruct (fresh_key (dict_keys acc) k1); [|left; exact H].
    apply in_app_iff in H. destruct H as [H | [<- | []]]; auto.
Qed.



(** ** The store only grows *)

Lemma prefix_insert_ge (h0 h : heap) (a : nat) (o : obj) :
  h0 `prefix_of` h -> (length h0 <= a)%nat -> h0 `prefix_of` <[a := o]> h.
Proof.
  intros [ext ->] Ha. exists (<[(a - length h0)%nat := o]> ext).
  apply insert_app_r_alt. exact Ha.
Qed.

Lemma setitem_h_frame (h0 h h' : heap) (a : nat) (k v : hval) (r : result unit) :
  setitem_h a k v h = Some (h', r) ->
  h0 `prefix_of` h -> (length h0 <= a)%nat -> h0 `prefix_of` h'.
Proof.
  unfold setitem_h. intros H Hp Ha. destruct (hashable_h k).
  - destruct (h !! a) as [[l|d]|]; try discriminate. injection H as <- <-.
    apply prefix_insert_ge; assumption.
  - injection H as <- <-. exact Hp.
Qed.

Lemma append_h_frame (h0 h h' : heap) (a : nat) (v : hval) (r : result unit) :
  append_h a v h = Some (h', r) ->
  h0 `prefix_of` h -> (length h0 <= a)%nat -> h0 `prefix_of` h'.
Proof.
  unfold append_h. intros H Hp Ha.
  destruct (h !! a) as [[l|d]|]; try discriminate. injection H as <- <-.
  apply prefix_insert_ge; assumption.
Qed.

Lemma update_h_frame (pairs : list (hval * hval)) (h0 h h' : heap) (a : nat)
  (r : result unit) :
  update_h a pairs h = Some (h', r) ->
  h0 `prefix_of` h -> (length h0 <= a)%nat -> h0 `prefix_of` h'.
Proof.
  revert h. induction pairs as [|[k v] pairs IH]; intros h H Hp Ha; simpl in H.
  - injection H as <- <-. exact Hp.
  - destruct (setitem_h a k v h) as [[h1 [[]|e]]|] eqn:Hs; try discriminate.
    + eapply IH; [exact H | | exact Ha]. eapply setitem_h_frame; eauto.
    + injection H as <- <-. eapply setitem_h_frame; eauto.
Qed.

Section HeapComprehensionsFrame.
Variable f : hval -> run hval.
Hypothesis f_frame : forall v h h' r, f v h = Some (h', r) -> h `prefix_of` h'.

Lemma list_comp_h_frame (items : list hval) (h0 h h' : heap) (new : nat)
  (r : result unit) :
  list_comp_h f new items h = Some (h', r) ->
  h0 `prefix_of` h -> (length h0 <= new)%nat -> h0 `prefix_of` h'.
Proof.
  revert h. induction items as [|v items IH]; intros h H Hp Hn; simpl in H.
  - injection H as <- <-. exact Hp.
  - destruct (f v h) as [[h1 [v'|e]]|] eqn:Hf; try discriminate.
    + assert (Hp1 : h0 `prefix_of` h1)
        by (etrans; [exact Hp | eapply f_frame, Hf]).
      destruct (append_h new v' h1) as [[h2 [[]|e]]|] eqn:Ha; try discriminate.
      * eapply IH; [exact H | | exact Hn]. eapply append_h_frame; eauto.
      * injection H as <- <-. eapply append_h_frame; eauto.
    + injection H as <- <-. etrans; [exact Hp | eapply f_frame, Hf].
Qed.

Lemma tuple_gen_h_frame (items : list hval) (h h' : heap)
  (r : result (list hval)) :
  tuple_gen_h f items h = Some (h', r) -> h `prefix_of` h'.
Proof.
  revert h r. induction items as [|v items IH]; intros h r H; simpl in H.
  - injection H as <- <-. reflexivity.
  - destruct (f v h) as [[h1 [v'|e]]|] eqn:Hf; try discriminate.
    + apply f_frame in Hf.
      destruct (tuple_gen_h f items h1) as [[h2 [rest'|e]]|] eqn:Ht;
        try discriminate; injection H as <- <-;
        (etrans; [exact Hf | eapply IH, Ht]).
    + injection H as <- <-. eapply f_frame, Hf.
Qed.

Lemma dict_comp_h_frame (items : list (hval * hval)) (h0 h h' : heap)
  (new : nat) (r : result unit) :
  dict_comp_h f new items h = Some (h', r) ->
  h0 `prefix_of` h -> (length h0 <= new)%nat -> h0 `prefix_of` h'.
Proof.
  revert h. induction items as [|[k v] items IH]; intros h H Hp Hn; simpl in H.
  - injection H as <- <-. exact Hp.
  - destruct (f k h) as [[h1 [k'|e]]|] eqn:Hk; try discriminate.
    + assert (Hp1 : h0 `prefix_of` h1)
        by (etrans; [exact Hp | eapply f_frame, Hk]).
      destruct (f v h1) as [[h2 [v'|e]]|] eqn:Hv; try discriminate.
      * assert (Hp2 : h0 `prefix_of` h2)
          by (etrans; [exact Hp1 | eapply f_frame, Hv]).
        destruct (setitem_h new k' v' h2) as [[h3 [[]|e]]|] eqn:Hs;
          try discriminate.
        -- eapply IH; [exact H | | exact Hn]. eapply setitem_h_frame; eauto.
        -- injection H as <- <-. eapply setitem_h_frame; eauto.
      * injection H as <- <-. etrans; [exact Hp1 | eapply f_frame, Hv].
    + injection H as <- <-. etrans; [exact Hp | eapply f_frame, Hk].
Qed.
End HeapComprehensionsFrame.

(** Whatever [strings2utf8] returns or raises, the store from before the call
    is an initial part of the store after it. *)
Lemma strings2utf8_h_frame (fuel : nat) :
  forall data h h' r,
    strings2utf8_h fuel data h = Some (h', r) -> h `prefix_of` h'.
Proof.
  induction fuel as [|fuel IH]; intros data h h' r H; [discriminate|].
  assert (Hgrow : h `prefix_of` h ++ [ODict []]) by apply prefix_app_r, reflexivity.
  assert (Hgrow' : h `prefix_of` h ++ [OList []]) by apply prefix_app_r, reflexivity.
  destruct data as [| | | s | | |items|a]; simpl in H;
    try (injection H as <- <-; reflexivity).
  - destruct (tuple_gen_h (strings2utf8_h fuel) items h) as [[h1 [ys|e]]|] eqn:Ht;
      try discriminate; injection H as <- <-;
      eapply tuple_gen_h_frame; eauto.
  - destruct (h !! a) as [[items|items]|]; try discriminate.
    + destruct (list_comp_h _ _ _ _) as [[h1 [[]|e]]|] eqn:Hl;
        try discriminate; injection H as <- <-;
        eapply list_comp_h_frame; eauto.
    + destruct (dict_comp_h _ _ _ _) as [[h1 [[]|e]]|] eqn:Hd;
        try discriminate; injection H as <- <-;
        eapply dict_comp_h_frame; eauto.
Qed.

Lemma tuple2dict_h_frame (data : namedtuple_h) (h h' : heap) (r : result hval) :
  tuple2dict_h data h = Some (h', r) -> h `prefix_of` h'.
Proof.
  unfold tuple2dict_h. intros H.
  assert (Hgrow : h `prefix_of` h ++ [ODict []]) by apply prefix_app_r, reflexivity.
  destruct (update_h _ _ _) as [[h1 [[]|e]]|] eqn:H1; try discriminate.
  - assert (Hp1 : h `prefix_of` h1) by (eapply update_h_frame; eauto).
    destruct (h1 !! length h) as [[l|entries]|]; try discriminate.
    assert (Hgrow1 : h `prefix_of` h1 ++ [ODict []])
      by (etrans; [exact Hp1 | apply prefix_app_r; reflexivity]).
    assert (Hlen : (length h <= length h1)%nat) by apply prefix_length, Hp1.
    destruct (update_h _ _ (h1 ++ _)) as [[h2 [[]|e]]|] eqn:H2; try discriminate.
    + assert (Hp2 : h `prefix_of` h2) by (eapply update_h_frame; eauto).
      destruct (setitem_h _ _ _ h2) as [[h3 [[]|e]]|] eqn:H3; try discriminate;
        injection H as <- <-; eapply setitem_h_frame; eauto.
    + injection H as <- <-. eapply update_h_frame; eauto.
  - injection H as <- <-. eapply update_h_frame; eauto.
Qed.

(** ** The store model and the value model agree *)

(** [denotes n h v x]: in the store [h], the reference [v] stands for the
    value [x], through objects at addresses from [n] on only.  A container
    that holds itself stands for no value. *)
Unset Elimination Schemes.
Inductive denotes (n : nat) (h : heap) : hval -> pyval -> Prop :=
| den_none : denotes n h HNone PNone
| den_bool b : denotes n h (HBool b) (PBool b)
| den_int z : denotes n h (HInt z) (PInt z)
| den_str s : denotes n h (HStr s) (PStr s)
| den_bytes b : denotes n h (HBytes b) (PBytes b)
| den_obj i : denotes n h (HObj i) (PObj i)
| den_tuple vs xs :
    Forall2 (denotes n h) vs xs -> denotes n h (HTuple vs) (PTuple xs)
| den_list a vs xs :
    (n <= a)%nat -> h !! a = Some (OList vs) ->
    Forall2 (denotes n h) vs xs -> denotes n h (HRef a) (PList xs)
| den_dict a es ps :
    (n <= a)%nat -> h !! a = Some (ODict es) ->
    Forall2 (fun e p => denotes n h (fst e) (fst p) /\
                        denotes n h (snd e) (snd p)) es ps ->
    denotes n h (HRef a) (PDict ps).
Set Elimination Schemes.

Lemma denotes_transport (n n' : nat) (h h' : heap) :
  (n' <= n)%nat ->
  (forall a o, (n <= a)%nat -> h !! a = Some o -> h' !! a = Some o) ->
  forall x v, denotes n h v x -> denotes n' h' v x.
Proof.
  intros Hn Hh.
  induction x as [| | | | |items IH|items IH|items IH|] using pyval_ind;
    intros v H; inversion H; subst; try constructor.
  - econstructor; [lia | eauto |].
    match goal with HF : Forall2 _ _ items |- _ =>
      clear -IH HF; induction HF; inversion IH; subst; constructor; auto end.
  - match goal with HF : Forall2 _ _ items |- _ =>
      clear -IH HF; induction HF; inversion IH; subst; constructor; auto end.
  - econstructor; [lia | eauto |].
    match goal with HF : Forall2 _ _ items |- _ =>
      clear -IH HF; induction HF as [|? ? ? ? [? ?] _ ?];
        inversion IH as [|? ? [? ?] ?]; subst; constructor; auto end.
Qed.

Lemma denotes_prefix (n : nat) (h h' : heap) (v : hval) (x : pyval) :
  h `prefix_of` h' -> denotes n h v x -> denotes n h' v x.
Proof.
  intros Hp. apply denotes_transport; [lia|].
  intros a o _ Ha. eapply prefix_lookup_Some; eauto.
Qed.

Lemma denotes_weaken (n n' : nat) (h : heap) (v : hval) (x : pyval) :
  (n' <= n)%nat -> denotes n h v x -> denotes n' h v x.
Proof. intros Hn. apply denotes_transport; auto. Qed.

Lemma denotes_insert (n : nat) (h : heap) (a : nat) (o : obj) (v : hval)
  (x : pyval) :
  (a < n)%nat -> denotes n h v x -> denotes n (<[a := o]> h) v x.
Proof.
  intros Ha. apply denotes_transport; [lia|].
  intros a' o' Ha' Hl. rewrite list_lookup_insert_ne by lia. exact Hl.
Qed.

Lemma denotes_hashable (n : nat) (h : heap) (x : pyval) :
  forall v, denotes n h v x -> hashable_h v = hashable x.
Proof.
  induction x as [| | | | |items IH|items IH|items IH|] using pyval_ind;
    intros v H; inversion H; subst; try reflexivity.
  simpl. match goal with HF : Forall2 _ _ items |- _ =>
    clear -IH HF; induction HF; inversion IH; subst; simpl; [reflexivity|];
      f_equal; auto end.
Qed.

Lemma denotes_key_eqb_tuple (n : nat) (h : heap) (vs : list hval)
  (xs : list pyval) :
  Forall2 (denotes n h) vs xs ->
  forall ws ys,
    Forall2 (denotes n h) ws ys ->
    Forall (fun x => forall y v w, denotes n h v x -> denotes n h w y ->
                                   key_eqb_h v w = key_eqb x y) xs ->
    key_eqb_h (HTuple vs) (HTuple ws) = key_eqb (PTuple xs) (PTuple ys).
Proof.
  induction 1 as [|v x vs xs Hvx _ IH]; intros ws ys HF HP;
    inversion HF as [|w y ws' ys' Hwy HF']; subst; try reflexivity.
  inversion HP as [|? ? Hx HP']; subst.
  change (key_eqb_h v w && key_eqb_h (HTuple vs) (HTuple ws')
          = key_eqb x y && key_eqb (PTuple xs) (PTuple ys')).
  f_equal; [eapply Hx; eassumption | apply IH; assumption].
Qed.

Lemma denotes_key_eqb (n : nat) (h : heap) (x : pyval) :
  forall y v w, denotes n h v x -> denotes n h w y ->
                key_eqb_h v w = key_eqb x y.
Proof.
  induction x as [| | | | |items IH|items IH|items IH|] using pyval_ind;
    intros y v w Hv Hw; inversion Hv; subst; inversion Hw; subst;
    try reflexivity.
  eapply denotes_key_eqb_tuple; eassumption.
Qed.

Definition denotes_entry (n : nat) (h : heap) (e : hval * hval)
  (p : pyval * pyval) : Prop :=
  denotes n h (fst e) (fst p) /\ denotes n h (snd e) (snd p).

Lemma denotes_dict_store (n : nat) (h : heap) (d : list (hval * hval))
  (pd : dict_items) (k v : hval) (pk pv : pyval) :
  Forall2 (denotes_entry n h) d pd -> denotes n h k pk -> denotes n h v pv ->
  Forall2 (denotes_entry n h) (dict_store_h d k v) (dict_store pd pk pv).
Proof.
  intros Hd Hk Hv. induction Hd as [|[k0 v0] [pk0 pv0] d pd [Hk0 Hv0] Hd IH];
    simpl.
  - constructor; [split; assumption | constructor].
  - simpl in Hk0, Hv0. rewrite (denotes_key_eqb n h pk0 pk k0 k Hk0 Hk).
    destruct (key_eqb pk0 pk).
    + constructor; [split; assumption | assumption].
    + constructor; [split; assumption | exact IH].
Qed.

(** How a run on the store answers to a result on values: the same
    exception, or a reference that stands for the value, through objects at
    addresses from [n] on. *)
Definition outcome (n : nat) (h' : heap) (r : result hval) (p : result pyval)
  : Prop :=
  match p with
  | Ok y => exists v', r = Ok v' /\ denotes n h' v' y
  | Raise e => r = Raise e
  end.

Definition call_agrees (f : hval -> run hval) (x : pyval) : Prop :=
  forall h v, denotes 0 h v x ->
    exists h' r, f v h = Some (h', r) /\
                 outcome (length h) h' r (strings2utf8 x).

Lemma denotes_entries_transport (n n' : nat) (h h' : heap)
  (es : list (hval * hval)) (ps : dict_items) :
  (forall v x, denotes n h v x -> denotes n' h' v x) ->
  Forall2 (denotes_entry n h) es ps -> Forall2 (denotes_entry n' h') es ps.
Proof.
  intros Ht HF. eapply Forall2_impl; [exact HF|].
  intros e p [Hk Hv]. split; apply Ht; assumption.
Qed.

Section HeapComprehensionsAgree.
Variable f : hval -> run hval.
Hypothesis f_frame : forall v h h' r, f v h = Some (h', r) -> h `prefix_of` h'.

Lemma tuple_gen_h_agrees (vs : list hval) (xs : list pyval) :
  Forall (call_agrees f) xs ->
  forall h, Forall2 (denotes 0 h) vs xs ->
  exists h' r,
    tuple_gen_h f vs h = Some (h', r) /\
    match list_comp strings2utf8 xs with
    | Ok ys => exists out, r = Ok out /\ Forall2 (denotes (length h) h') out ys
    | Raise e => r = Raise e
    end.
Proof.
  intros Hf. revert vs. induction Hf as [|x xs Hx _ IH]; intros vs h HF;
    inversion HF as [|v ? vs' ? Hvx HF']; subst; simpl.
  - exists h, (Ok []). split; [reflexivity|]. exists []. split; constructor.
  - destruct (Hx h v Hvx) as (h1 & r1 & Hcall & Hout). rewrite Hcall.
    pose proof (f_frame _ _ _ _ Hcall) as Hp1.
    destruct (strings2utf8 x) as [y|e]; simpl in Hout |- *.
    + destruct Hout as (v' & -> & Hv').
      assert (HF1 : Forall2 (denotes 0 h1) vs' xs)
        by (eapply Forall2_impl; [exact HF'|]; intros; eapply denotes_prefix; eauto).
      destruct (IH vs' h1 HF1) as (h2 & r2 & Hrest & Hout2). rewrite Hrest.
      pose proof (tuple_gen_h_frame f f_frame _ _ _ _ Hrest) as Hp2.
      destruct (list_comp strings2utf8 xs) as [ys|e]; simpl.
      * destruct Hout2 as (out & -> & Hout2). exists h2, (Ok (v' :: out)).
        split; [reflexivity|]. exists (v' :: out). split; [reflexivity|].
        constructor; [eapply denotes_prefix; eauto|].
        eapply Forall2_impl; [exact Hout2|]. intros ? ?.
        apply denotes_weaken, prefix_length, Hp1.
      * subst r2. exists h2, (Raise e). split; reflexivity.
    + subst r1. exists h1, (Raise e). split; reflexivity.
Qed.

Lemma list_comp_h_agrees (vs : list hval) (xs : list pyval) (h0 : heap)
  (new : nat) :
  Forall (call_agrees f) xs -> Forall2 (denotes 0 h0) vs xs ->
  (length h0 <= new)%nat ->
  forall h acc_v acc_y,
    h0 `prefix_of` h -> h !! new = Some (OList acc_v) ->
    Forall2 (denotes (S new) h) acc_v acc_y ->
    exists h' r,
      list_comp_h f new vs h = Some (h', r) /\
      match list_comp strings2utf8 xs with
      | Ok ys => r = Ok tt /\
                 exists out, h' !! new = Some (OList out) /\
                             Forall2 (denotes (S new) h') out (acc_y ++ ys)
      | Raise e => r = Raise e
      end.
Proof.
  intros Hf HF Hnew. revert vs HF.
  induction Hf as [|x xs Hx _ IH]; intros vs HF h acc_v acc_y Hp Hl Hacc;
    inversion HF as [|v ? vs' ? Hvx HF']; subst; simpl.
  - exists h, (Ok tt). split; [reflexivity|]. split; [reflexivity|].
    exists acc_v. rewrite app_nil_r. auto.
  - assert (Hvh : denotes 0 h v x) by (eapply denotes_prefix; eauto).
    destruct (Hx h v Hvh) as (h1 & r1 & Hcall & Hout). rewrite Hcall.
    pose proof (f_frame _ _ _ _ Hcall) as Hp1.
    pose proof (lookup_lt_Some _ _ _ Hl) as Hlt.
    destruct (strings2utf8 x) as [y|e]; simpl in Hout |- *.
    + destruct Hout as (v' & -> & Hv').
      pose proof (prefix_lookup_Some _ _ _ _ Hl Hp1) as Hl1.
      pose proof (lookup_lt_Some _ _ _ Hl1) as Hlt1.
      unfold append_h. rewrite Hl1.
      set (h2 := <[new := OList (acc_v ++ [v'])]> h1).
      assert (Hacc2 : Forall2 (denotes (S new) h2) (acc_v ++ [v']) (acc_y ++ [y])).
      { apply Forall2_app.
        - eapply Forall2_impl; [exact Hacc|]. intros ? ? ?.
          apply denotes_insert; [lia|]. eapply denotes_prefix; eauto.
        - constructor; [|constructor]. apply denotes_insert; [lia|].
          eapply denotes_weaken; [|exact Hv']. lia. }
      destruct (IH vs' HF' h2 (acc_v ++ [v']) (acc_y ++ [y]))
        as (h' & r & Hrest & Hout'); try assumption.
      * apply prefix_insert_ge; [etrans; [exact Hp | exact Hp1] | exact Hnew].
      * apply list_lookup_insert_eq. exact Hlt1.
      * exists h', r. split; [exact Hrest|].
        destruct (list_comp strings2utf8 xs) as [ys|e]; simpl; [|exact Hout'].
        rewrite <- app_assoc in Hout'. exact Hout'.
    + subst r1. exists h1, (Raise e). split; reflexivity.
Qed.

Lemma dict_comp_h_agrees (es : list (hval * hval)) (ps : dict_items)
  (h0 : heap) (new : nat) :
  Forall (fun p => call_agrees f (fst p) /\ call_agrees f (snd p)) ps ->
  Forall2 (denotes_entry 0 h0) es ps ->
  (length h0 <= new)%nat ->
  forall h acc_e acc_p,
    h0 `prefix_of` h -> h !! new = Some (ODict acc_e) ->
    Forall2 (denotes_entry (S new) h) acc_e acc_p ->
    exists h' r,
      dict_comp_h f new es h = Some (h', r) /\
      match dict_comp strings2utf8 ps acc_p with
      | Ok d => r = Ok tt /\
                exists out, h' !! new = Some (ODict out) /\
                            Forall2 (denotes_entry (S new) h') out d
      | Raise e => r = Raise e
      end.
Proof.
  intros Hf HF Hnew. revert es HF.
  induction Hf as [|[pk pv] ps [Hfk Hfv] _ IH];
    intros es HF h acc_e acc_p Hp Hl Hacc;
    inversion HF as [|[k v] ? es' ? [Hk Hv] HF']; subst; simpl in *.
  - exists h, (Ok tt). split; [reflexivity|]. split; [reflexivity|]. eauto.
  - pose proof (lookup_lt_Some _ _ _ Hl) as Hlt.
    assert (Hkh : denotes 0 h k pk) by (eapply denotes_prefix; eauto).
    destruct (Hfk h k Hkh) as (h1 & r1 & Hcall1 & Hout1). rewrite Hcall1.
    pose proof (f_frame _ _ _ _ Hcall1) as Hp1.
    destruct (strings2utf8 pk) as [pk'|e]; simpl in Hout1 |- *;
      [|subst r1; exists h1, (Raise e); split; reflexivity].
    destruct Hout1 as (k' & -> & Hk').
    assert (Hvh : denotes 0 h1 v pv)
      by (apply (denotes_prefix 0 h0 h1);
          [etrans; [exact Hp | exact Hp1] | exact Hv]).
    destruct (Hfv h1 v Hvh) as (h2 & r2 & Hcall2 & Hout2). rewrite Hcall2.
    pose proof (f_frame _ _ _ _ Hcall2) as Hp2.
    pose proof (prefix_length _ _ Hp1) as Hlen1.
    destruct (strings2utf8 pv) as [pv'|e]; simpl in Hout2 |- *;
      [|subst r2; exists h2, (Raise e); split; reflexivity].
    destruct Hout2 as (v' & -> & Hv').
    assert (Hl2 : h2 !! new = Some (ODict acc_e)).
    { eapply prefix_lookup_Some; [|exact Hp2].
      eapply prefix_lookup_Some; [exact Hl | exact Hp1]. }
    pose proof (lookup_lt_Some _ _ _ Hl2) as Hlt2.
    assert (Hk2 : denotes (S new) h2 k' pk').
    { eapply denotes_prefix; [exact Hp2|].
      eapply denotes_weaken; [|exact Hk']. lia. }
    assert (Hv2 : denotes (S new) h2 v' pv')
      by (eapply denotes_weaken; [|exact Hv']; lia).
    unfold setitem_h, dict_setitem.
    rewrite (denotes_hashable _ _ _ _ Hk2).
    destruct (hashable pk'); simpl;
      [|exists h2, (Raise TypeError); split; reflexivity].
    rewrite Hl2.
    set (h3 := <[new := ODict (dict_store_h acc_e k' v')]> h2).
    assert (Hacc3 : Forall2 (denotes_entry (S new) h3)
                      (dict_store_h acc_e k' v') (dict_store acc_p pk' pv')).
    { apply denotes_dict_store.
      - eapply denotes_entries_transport; [|exact Hacc]. intros ? ? ?.
        apply denotes_insert; [lia|]. apply (denotes_prefix _ h h2); [|assumption].
        etrans; [exact Hp1 | exact Hp2].
      - apply denotes_insert; [lia | exact Hk2].
      - apply denotes_insert; [lia | exact Hv2]. }
    apply (IH es' HF' h3 (dict_store_h acc_e k' v') (dict_store acc_p pk' pv'));
      try assumption.
    + apply prefix_insert_ge; [|exact Hnew].
      etrans; [exact Hp|]. etrans; [exact Hp1 | exact Hp2].
    + apply list_lookup_insert_eq. exact Hlt2.
Qed.
End HeapComprehensionsAgree.

Lemma Forall_bound (P : nat -> pyval -> Prop) (xs : list pyval) :
  (forall x m m', P m x -> (m <= m')%nat -> P m' x) ->
  Forall (fun x => exists m, P m x) xs ->
  exists m, Forall (P m) xs.
Proof.
  intros Hmono HF. induction HF as [|x xs [m Hm] _ [ms Hms]].
  - exists 0%nat. constructor.
  - exists (Nat.max m ms). constructor.
    + eapply Hmono; [exact Hm | lia].
    + eapply Forall_impl; [exact Hms|]. intros y Hy.
      eapply Hmono; [exact Hy | lia].
Qed.

(** With enough fuel, [strings2utf8] on the store terminates on every
    reference that stands for a value [x], and answers to [strings2utf8 x]:
    the same exception, or a reference that stands for the result through
    objects that did not exist before the call. *)
Lemma strings2utf8_h_agrees (x : pyval) :
  exists m, forall fuel, (m <= fuel)%nat -> call_agrees (strings2utf8_h fuel) x.
Proof.
  induction x as [| | | s | |items IH|items IH|items IH|] using pyval_ind.
  1-3, 5, 9:
    exists 1%nat; intros [|fuel] Hfuel h v Hden; [lia|];
    inversion Hden; subst; simpl; eexists h, _; (split; [reflexivity|]);
    eexists; (split; [reflexivity | constructor]).
  - (* str *)
    exists 1%nat. intros [|fuel] Hfuel h v Hden; [lia|].
    inversion Hden; subst. simpl. eexists h, _. split; [reflexivity|].
    destruct (encode_utf8 s) as [b|e]; simpl; [|reflexivity].
    eexists. split; [reflexivity | constructor].
  - (* list *)
    destruct (Forall_bound
                (fun m x => forall fuel, (m <= fuel)%nat ->
                                         call_agrees (strings2utf8_h fuel) x)
                items) as [m Hm]; [intros; eauto with lia | exact IH |].
    exists (S m). intros [|fuel] Hfuel h v Hden; [lia|].
    inversion Hden as [| | | | | | |a vs ? _ Hl HF|]; subst. simpl. rewrite Hl.
    destruct (list_comp_h_agrees (strings2utf8_h fuel)
                (strings2utf8_h_frame fuel) vs items h (length h))
      with (h := h ++ [OList []]) (acc_v := @nil hval) (acc_y := @nil pyval)
      as (h' & r & Hrun & Hout).
    + eapply Forall_impl; [exact Hm|]. intros y Hy. apply Hy. lia.
    + exact HF.
    + lia.
    + apply prefix_app_r. reflexivity.
    + apply list_lookup_middle. reflexivity.
    + constructor.
    + rewrite Hrun. destruct (list_comp strings2utf8 items) as [ys|e]; simpl.
      * destruct Hout as (-> & out & Hlo & Hden'). eexists h', _.
        split; [reflexivity|]. eexists. split; [reflexivity|].
        econstructor; [lia | exact Hlo |].
        eapply Forall2_impl; [exact Hden'|]. intros ? ?.
        apply denotes_weaken. lia.
      * subst r. eexists h', _. split; reflexivity.
  - (* tuple *)
    destruct (Forall_bound
                (fun m x => forall fuel, (m <= fuel)%nat ->
                                         call_agrees (strings2utf8_h fuel) x)
                items) as [m Hm]; [intros; eauto with lia | exact IH |].
    exists (S m). intros [|fuel] Hfuel h v Hden; [lia|].
    inversion Hden as [| | | | | |vs ? HF| |]; subst. simpl.
    destruct (tuple_gen_h_agrees (strings2utf8_h fuel)
                (strings2utf8_h_frame fuel) vs items)
      with (h := h) as (h' & r & Hrun & Hout).
    + eapply Forall_impl; [exact Hm|]. intros y Hy. apply Hy. lia.
    + exact HF.
    + rewrite Hrun. destruct (list_comp strings2utf8 items) as [ys|e]; simpl.
      * destruct Hout as (out & -> & Hden'). eexists h', _.
        split; [reflexivity|]. eexists. split; [reflexivity|].
        constructor. exact Hden'.
      * subst r. eexists h', _. split; reflexivity.
  - (* dict *)
    assert (Hm : exists m, Forall
                   (fun p => forall fuel, (m <= fuel)%nat ->
                               call_agrees (strings2utf8_h fuel) (fst p) /\
                               call_agrees (strings2utf8_h fuel) (snd p))
                   items).
    { clear -IH. induction IH as [|[k v] items [[mk Hk] [mv Hv]] _ [ms Hms]].
      - exists 0%nat. constructor.
      - exists (Nat.max (Nat.max mk mv) ms). constructor.
        + intros fuel Hfuel. split; [apply Hk | apply Hv]; lia.
        + eapply Forall_impl; [exact Hms|]. intros p Hp fuel Hfuel.
          apply Hp. lia. }
    destruct Hm as [m Hm].
    exists (S m). intros [|fuel] Hfuel h v Hden; [lia|].
    inversion Hden as [| | | | | | | |a es ? _ Hl HF]; subst. simpl. rewrite Hl.
    destruct (dict_comp_h_agrees (strings2utf8_h fuel)
                (strings2utf8_h_frame fuel) es items h (length h))
      with (h := h ++ [ODict []]) (acc_e := @nil (hval * hval))
           (acc_p := @nil (pyval * pyval))
      as (h' & r & Hrun & Hout).
    + eapply Forall_impl; [exact Hm|]. intros p Hp. apply Hp. lia.
    + exact HF.
    + lia.
    + apply prefix_app_r. reflexivity.
    + apply list_lookup_middle. reflexivity.
    + constructor.
    + rewrite Hrun.
      destruct (dict_comp strings2utf8 items []) as [d|e]; simpl.
      * destruct Hout as (-> & out & Hlo & Hden'). eexists h', _.
        split; [reflexivity|]. eexists. split; [reflexivity|].
        econstructor; [lia | exact Hlo |].
        eapply denotes_entries_transport; [|exact Hden']. intros ? ?.
        apply denotes_weaken. lia.
      * subst r. eexists h', _. split; reflexivity.
Qed.

(** ** [tuple2dict] on the store *)

Definition store_all_h (acc pairs : list (hval * hval)) : list (hval * hval) :=
  fold_left (fun d kv => dict_store_h d (fst kv) (snd kv)) pairs acc.

Lemma dict_store_h_Forall (A B : hval -> Prop) (d : list (hval * hval))
  (k v : hval) :
  Forall (fun kv => A (fst kv) /\ B (snd kv)) d -> A k -> B v ->
  Forall (fun kv => A (fst kv) /\ B (snd kv)) (dict_store_h d k v).
Proof.
  intros Hd Hk Hv. induction d as [|[k0 v0] d IH]; simpl.
  - constructor; [split; assumption | constructor].
  - inversion Hd as [|? ? [Hk0 Hv0] Hd']; subst. simpl in *.
    destruct (key_eqb_h k0 k).
    + constructor; [split; assumption | assumption].
    + constructor; [split; assumption | apply IH; assumption].
Qed.

Lemma store_all_h_Forall (A B : hval -> Prop) (pairs acc : list (hval * hval)) :
  Forall (fun kv => A (fst kv) /\ B (snd kv)) acc ->
  Forall (fun kv => A (fst kv) /\ B (snd kv)) pairs ->
  Forall (fun kv => A (fst kv) /\ B (snd kv)) (store_all_h acc pairs).
Proof.
  revert acc. induction pairs as [|[k v] pairs IH]; intros acc Hacc Hp; simpl.
  - exact Hacc.
  - inversion Hp as [|? ? [Hk Hv] Hp']; subst. simpl in *.
    apply IH; [|exact Hp']. apply dict_store_h_Forall; assumption.
Qed.

(** Stores under hashable keys into the dict at [a] never raise. *)
Lemma update_h_ok (pairs : list (hval * hval)) (a : nat) (h : heap)
  (d : list (hval * hval)) :
  Forall (fun kv => hashable_h (fst kv) = true) pairs ->
  h !! a = Some (ODict d) ->
  update_h a pairs h = Some (<[a := ODict (store_all_h d pairs)]> h, Ok tt).
Proof.
  revert h d. induction pairs as [|[k v] pairs IH]; intros h d Hp Hl; simpl.
  - rewrite list_insert_id by exact Hl. reflexivity.
  - inversion Hp as [|? ? Hk Hp']; subst. simpl in Hk.
    unfold setitem_h. rewrite Hk, Hl.
    rewrite (IH _ (dict_store_h d k v) Hp').
    + rewrite list_insert_insert_eq. reflexivity.
    + apply list_lookup_insert_eq. eapply lookup_lt_Some, Hl.
Qed.

Lemma denotes_store_all (n : nat) (h : heap) (pairs : list (hval * hval))
  (ppairs : dict_items) :
  Forall2 (denotes_entry n h) pairs ppairs ->
  forall acc pacc,
    Forall2 (denotes_entry n h) acc pacc ->
    Forall2 (denotes_entry n h) (store_all_h acc pairs) (store_all pacc ppairs).
Proof.
  induction 1 as [|[k v] [pk pv] pairs ppairs [Hk Hv] _ IH]; intros acc pacc Hacc;
    simpl.
  - exact Hacc.
  - apply IH. apply denotes_dict_store; assumption.
Qed.

(** The entries of [data._asdict()] on the store *)
Definition field_items_h (data : namedtuple_h) : list (hval * hval) :=
  combine (map HStr (fields_h data)) (values_h data).

Lemma field_items_h_hashable (names : list text) (vals : list hval) :
  Forall (fun kv => hashable_h (fst kv) = true)
         (combine (map HStr names) vals).
Proof.
  revert vals. induction names as [|f names IH]; intros [|v vals]; simpl;
    constructor; auto.
Qed.

(** [tuple2dict] on the store returns a new dict, after the dict of
    [_asdict()]; its values are the values of the namedtuple themselves (the
    same references) and the class name. *)
Lemma tuple2dict_h_returns (data : namedtuple_h) (h : heap) :
  exists h',
    tuple2dict_h data h = Some (h', Ok (HRef (S (length h)))) /\
    h' !! S (length h) =
      Some (ODict (dict_store_h
                     (store_all_h [] (store_all_h [] (field_items_h data)))
                     (HStr (str_lit "type")) (HStr (class_name_h data)))).
Proof.
  unfold tuple2dict_h. fold (field_items_h data).
  assert (Hh : Forall (fun kv => hashable_h (fst kv) = true) (field_items_h data))
    by apply field_items_h_hashable.
  rewrite (update_h_ok _ (length h) (h ++ [ODict []]) [] Hh)
    by (apply list_lookup_middle; reflexivity).
  set (d1 := store_all_h [] (field_items_h data)).
  set (h1 := <[length h := ODict d1]> (h ++ [ODict []])).
  assert (Hlen1 : length h1 = S (length h))
    by (unfold h1; rewrite length_insert, length_app; simpl; lia).
  assert (Hl1 : h1 !! length h = Some (ODict d1))
    by (apply list_lookup_insert_eq; rewrite length_app; simpl; lia).
  rewrite Hl1, Hlen1.
  assert (Hh1 : Forall (fun kv => hashable_h (fst kv) = true) d1).
  { pose proof (store_all_h_Forall (fun k => hashable_h k = true) (fun _ => True)
                  (field_items_h data) []) as H.
    eapply Forall_impl; [apply H|]; [constructor| |intros ? [? _]; assumption].
    eapply Forall_impl; [exact Hh|]. simpl. auto. }
  rewrite (update_h_ok _ (S (length h)) (h1 ++ [ODict []]) [] Hh1)
    by (apply list_lookup_middle; symmetry; exact Hlen1).
  set (h2 := <[S (length h) := ODict (store_all_h [] d1)]> (h1 ++ [ODict []])).
  assert (Hl2 : h2 !! S (length h) = Some (ODict (store_all_h [] d1)))
    by (apply list_lookup_insert_eq; rewrite length_app, Hlen1; simpl; lia).
  unfold setitem_h. simpl hashable_h. cbv iota. rewrite Hl2.
  eexists. split; [reflexivity|].
  apply list_lookup_insert_eq. eapply lookup_lt_Some, Hl2.
Qed.

Lemma field_items_h_values (names : list text) (vals : list hval) :
  Forall (fun e => In (snd e) vals) (combine (map HStr names) vals).
Proof.
  revert names. induction vals as [|v vals IH]; intros [|f names]; simpl;
    constructor.
  - left. reflexivity.
  - eapply Forall_impl; [apply IH|]. intros e He. right. exact He.
Qed.

Lemma field_items_denote (n : nat) (h : heap) (names : list text)
  (vals : list hval) (pvals : list pyval) :
  Forall2 (denotes n h) vals pvals ->
  Forall2 (denotes_entry n h) (combine (map HStr names) vals)
    (combine (map PStr names) pvals).
Proof.
  intros HF. revert names. induction HF as [|v x vals pvals Hvx _ IH];
    intros [|f names]; simpl; try constructor.
  - split; [constructor | exact Hvx].
  - apply IH.
Qed.

(** [tuple2dict] on the store answers to [tuple2dict] on values. *)
Lemma tuple2dict_h_agrees (data : namedtuple_h) (pdata : namedtuple) (h : heap) :
  class_name_h data = class_name pdata -> fields_h data = fields pdata ->
  Forall2 (denotes 0 h) (values_h data) (values pdata) ->
  exists h' pd,
    tuple2dict_h data h = Some (h', Ok (HRef (S (length h)))) /\
    tuple2dict pdata = Ok pd /\ denotes 0 h' (HRef (S (length h))) pd.
Proof.
  intros Hname Hfields Hvals.
  destruct (tuple2dict_h_returns data h) as (h' & Hrun & Hl).
  exists h'. eexists. split; [exact Hrun|]. split; [apply tuple2dict_eq|].
  pose proof (tuple2dict_h_frame _ _ _ _ Hrun) as Hp.
  econstructor; [lia | exact Hl |].
  apply denotes_dict_store.
  - apply denotes_store_all; [|constructor].
    apply denotes_store_all; [|constructor].
    unfold field_items_h, field_items. rewrite Hfields.
    apply field_items_denote.
    eapply Forall2_impl; [exact Hvals|]. intros ? ?. apply denotes_prefix, Hp.
  - constructor.
  - rewrite Hname. constructor.
Qed.

(** Every object of the store [h] is the same object in [h']. *)
Definition unchanged (h h' : heap) : Prop :=
  forall a o, h !! a = Some o -> h' !! a = Some o.

Lemma prefix_unchanged (h h' : heap) : h `prefix_of` h' -> unchanged h h'.
Proof. intros Hp a o Ha. eapply prefix_lookup_Some; eauto. Qed.

(** ** The claims *)

(** The codec on one code point of each length: ['a'], ['\xfc'], the euro
    sign and U+1F600. *)
Example encode_utf8_vectors :
  encode_utf8 [0x61; 0xFC; 0x20AC; 0x1F600] =
  Ok [x61; xc3; xbc; xe2; x82; xac; xf0; x9f; x98; x80].
Proof. reflexivity. Qed.

(** Sample values, after the parameters of [tests/test_rpy.py]. *)
Definition sample_selector : pyval :=
  PDict [(PStr (str_lit "foofoo"), PStr (str_lit "test"));
         (PStr (str_lit "foobar"), PInt 2)].
Definition sample_options : pyval :=
  PList [PTuple [PStr (str_lit "a"); PBool true];
         PTuple [PStr (str_lit "b"); PBool false]].
Definition sample_value : pyval :=
  PDict [(PStr (str_lit "foo"), sample_selector);
         (PStr (str_lit "bar"), sample_options);
         (PStr (str_lit "text"), PStr [0x432; 0xFC; 0x2E]);
         (PInt 7, PNone)].
Definition sample_tuple : namedtuple :=
  {| class_name := str_lit "tuple";
     fields := [str_lit "foo"; str_lit "bar"];
     values := [sample_selector; sample_options] |}.

(** A dict with the text key ['a'] and the bytes key [b'a']. *)
Definition colliding_dict : pyval :=
  PDict [(PStr (str_lit "a"), PInt 1); (PBytes (bytes_lit "a"), PInt 2)].

(** The text ['\ud800']: one lone surrogate. *)
Definition lone_surrogate : pyval := PStr [0xD800].

(** A store with the list [['a', {'k': ('b', 1)}]] at address 0, its dict
    at address 1, and the value that the list stands for. *)
Definition sample_heap : heap :=
  [OList [HStr (str_lit "a"); HRef 1];
   ODict [(HStr (str_lit "k"), HTuple [HStr (str_lit "b"); HInt 1])]].
Definition sample_heap_value : pyval :=
  PList [PStr (str_lit "a");
         PDict [(PStr (str_lit "k"), PTuple [PStr (str_lit "b"); PInt 1])]].

Lemma sample_heap_denotes : denotes 0 sample_heap (HRef 0) sample_heap_value.
Proof.
  eapply den_list; [lia | reflexivity |].
  repeat constructor.
  eapply den_dict; [lia | reflexivity |].
  repeat constructor.
Qed.

(** On the sample store, the call makes a new list at address 2 and a new
    dict at address 3, and leaves the objects 0 and 1 as they were. *)
Example strings2utf8_h_sample :
  strings2utf8_h 4 (HRef 0) sample_heap =
  Some (sample_heap ++
          [OList [HBytes (bytes_lit "a"); HRef 3];
           ODict [(HBytes (bytes_lit "k"),
                   HTuple [HBytes (bytes_lit "b"); HInt 1])]],
        Ok (HRef 2)).
Proof. reflexivity. Qed.

(** C1, as stated, fails on two well-formed values: the dict
    [{'a': 1, b'a': 2}] is returned with one entry, so not with the shape of
    the argument, and on the text ['\ud800'] there is no result at all. *)
Lemma strings2utf8_shape_counterexample :
  (well_formed colliding_dict = true /\
   exists y, strings2utf8 colliding_dict = Ok y /\ ~ encoded_as colliding_dict y) /\
  (well_formed lone_surrogate = true /\
   forall y, strings2utf8 lone_surrogate <> Ok y).
Proof.
  split; split; try reflexivity.
  - exists (PDict [(PBytes (bytes_lit "a"), PInt 2)]). split; [reflexivity|].
    intros H. inversion H as [| | | | | | | |xs ys HF]; subst.
    inversion HF as [|? ? ? ? _ HF']; subst. inversion HF'.
  - intros y H. discriminate H.
Qed.

(** C1 (amended): for every value whose text leaves hold no surrogate and in
    whose dicts the encoded keys stay pairwise different, [strings2utf8]
    returns a value of the same shape (same entries in the same order, same
    sequence order, same tuple arity) in which every text leaf is replaced by
    its UTF-8 octets and every other leaf is the same; no text is left. *)
Theorem strings2utf8_shape (x : pyval) :
  well_formed x = true -> encodable x = true -> keys_stay_distinct x = true ->
  exists y, strings2utf8 x = Ok y /\ encoded_as x y /\ no_text y = true.
Proof.
  intros Hwf Henc Hkeys.
  destruct (proj1 (strings2utf8_returns_iff x Hwf) Henc) as [y Hy].
  exists y. split; [exact Hy|]. split.
  - apply strings2utf8_encoded_as; assumption.
  - apply (strings2utf8_output x y Hy).
Qed.

Lemma strings2utf8_shape_witness :
  well_formed sample_value = true /\ encodable sample_value = true /\
  keys_stay_distinct sample_value = true /\
  exists y, strings2utf8 sample_value = Ok y /\ encoded_as sample_value y /\
            no_text y = true.
Proof.
  split; [reflexivity|]. split; [reflexivity|]. split; [reflexivity|].
  apply (strings2utf8_shape sample_value); reflexivity.
Defined.

(** C2: for a namedtuple of class [V] with fields [F], [tuple2dict] returns a
    dict whose keys are exactly the names in [F] and ['type'], none twice,
    and whose value at ['type'] is the class name [V]. *)
Theorem tuple2dict_keys (data : namedtuple) :
  well_formed_nt data ->
  exists d,
    tuple2dict data = Ok (PDict d) /\
    (forall k, In k (dict_keys d) <->
               (exists f, In f (fields data) /\ k = PStr f) \/
               k = PStr (str_lit "type")) /\
    distinct_keys (dict_keys d) = true /\
    dict_get d (PStr (str_lit "type")) = Some (PStr (class_name data)).
Proof.
  intros Hwf. pose proof Hwf as [Hlen Hnd].
  rewrite (tuple2dict_fields data Hwf). eexists. split; [reflexivity|].
  fold type_key.
  assert (Hkeys : dict_keys (field_items data) = map PStr (fields data))
    by (apply field_items_keys, Hlen).
  split; [|split].
  - intros k. rewrite dict_store_keys, Hkeys.
    destruct (fresh_key (map PStr (fields data)) type_key) eqn:Hf.
    + rewrite in_app_iff, in_map_iff. simpl. split.
      * intros [(f & <- & Hin) | [<- | []]]; eauto.
      * intros [(f & Hin & ->) | ->]; eauto.
    + rewrite in_map_iff. split.
      * intros (f & <- & Hin). eauto.
      * intros [(f & Hin & ->) | ->]; eauto.
        exists (str_lit "type"). split; [reflexivity|].
        destruct (List.in_dec (List.list_eq_dec N.eq_dec) (str_lit "type")
                    (fields data)) as [Hin | Hnin]; [exact Hin|].
        apply fresh_key_str in Hnin. unfold type_key in Hf. congruence.
  - apply dict_store_distinct. rewrite Hkeys. apply distinct_keys_str, Hnd.
  - apply dict_get_store_same. reflexivity.
Qed.

Lemma tuple2dict_keys_witness :
  well_formed_nt sample_tuple /\
  exists d,
    tuple2dict sample_tuple = Ok (PDict d) /\
    (forall k, In k (dict_keys d) <->
               (exists f, In f (fields sample_tuple) /\ k = PStr f) \/
               k = PStr (str_lit "type")) /\
    distinct_keys (dict_keys d) = true /\
    dict_get d (PStr (str_lit "type")) = Some (PStr (class_name sample_tuple)).
Proof.
  assert (Hwf : well_formed_nt sample_tuple).
  { split; [reflexivity | compute_done]. }
  split; [exact Hwf | apply (tuple2dict_keys sample_tuple Hwf)].
Defined.

(** [test_tuple2dict]: the fields, then ['type'] with the class name. *)
Example test_tuple2dict :
  tuple2dict sample_tuple =
  Ok (PDict [(PStr (str_lit "foo"), sample_selector);
             (PStr (str_lit "bar"), sample_options);
             (PStr (str_lit "type"), PStr (str_lit "tuple"))]).
Proof. reflexivity. Qed.

(** Modelled from the spec: [abp.filters.parse_line] and its line classes are
    not part of these sources.  The spec names the variant of the empty line
    [empty] and gives it no fields. *)
Definition empty_line : namedtuple :=
  {| class_name := str_lit "empty"; fields := []; values := [] |}.

(** A stand-in for [parse_line] to run [line2dict] with: it knows the empty
    line, as a [str] or as a [bytes], and refuses everything else. *)
Definition parse_line_double (line : pyval) : result namedtuple :=
  match line with
  | PStr [] | PBytes [] => Ok empty_line
  | _ => Raise (OtherError (str_lit "ParseError") (str_lit "not an empty line"))
  end.

(** C3: [line2dict] is [strings2utf8] after [tuple2dict] after [parse_line]
    ([tuple2dict] always returns, so the result of the parser goes through
    both), and an exception of the parser comes out as it is: an exception of
    [line2dict] is the parser's or the encoder's own. *)
Theorem line2dict_pipeline (parse_line : pyval -> result namedtuple)
  (line : pyval) :
  (forall parsed, parse_line line = Ok parsed ->
     exists as_dict, tuple2dict parsed = Ok as_dict /\
                     line2dict parse_line line = strings2utf8 as_dict) /\
  (forall e, parse_line line = Raise e -> line2dict parse_line line = Raise e) /\
  (forall e, line2dict parse_line line = Raise e ->
     parse_line line = Raise e \/
     exists parsed as_dict, parse_line line = Ok parsed /\
                            tuple2dict parsed = Ok as_dict /\
                            strings2utf8 as_dict = Raise e).
Proof.
  unfold line2dict. split; [|split].
  - intros parsed ->. simpl. rewrite tuple2dict_eq. simpl. eauto.
  - intros e ->. reflexivity.
  - intros e H. destruct (parse_line line) as [parsed|e'] eqn:Hp.
    + right. simpl in H. rewrite tuple2dict_eq in H. simpl in H.
      exists parsed. eexists. split; [reflexivity|].
      split; [apply tuple2dict_eq | exact H].
    + left. simpl in H. congruence.
Qed.

Lemma line2dict_pipeline_witness :
  parse_line_double (PStr []) = Ok empty_line /\
  parse_line_double (PInt 0) =
    Raise (OtherError (str_lit "ParseError") (str_lit "not an empty line")) /\
  (exists as_dict, tuple2dict empty_line = Ok as_dict /\
                   line2dict parse_line_double (PStr []) = strings2utf8 as_dict) /\
  line2dict parse_line_double (PInt 0) =
    Raise (OtherError (str_lit "ParseError") (str_lit "not an empty line")).
Proof.
  split; [reflexivity|]. split; [reflexivity|]. split.
  - apply (proj1 (line2dict_pipeline parse_line_double (PStr []))). reflexivity.
  - apply (proj1 (proj2 (line2dict_pipeline parse_line_double (PInt 0)))).
    reflexivity.
Defined.

(** C4: [strings2utf8] is idempotent, for every value: encoding the result
    again gives the result (and a call that raises still raises the same);
    and a value that holds no text is returned unchanged. *)
Theorem strings2utf8_idempotent (x : pyval) :
  (y <- strings2utf8 x ;; strings2utf8 y) = strings2utf8 x /\
  (well_formed x = true -> no_text x = true -> strings2utf8 x = Ok x).
Proof.
  split; [|apply strings2utf8_no_text].
  destruct (strings2utf8 x) as [y|e] eqn:Hx; [|reflexivity].
  simpl. destruct (strings2utf8_output x y Hx) as [Hwf Hnt].
  apply strings2utf8_no_text; assumption.
Qed.

Lemma strings2utf8_idempotent_witness :
  let encoded := PDict [(PBytes (bytes_lit "foo"), PList [PInt 1; PBytes []]);
                        (PTuple [PInt 1; PBool false], PNone)] in
  well_formed encoded = true /\ no_text encoded = true /\
  (y <- strings2utf8 encoded ;; strings2utf8 y) = strings2utf8 encoded /\
  strings2utf8 encoded = Ok encoded.
Proof.
  intros encoded. split; [reflexivity|]. split; [reflexivity|].
  destruct (strings2utf8_idempotent encoded) as [Hidem Hfix].
  split; [exact Hidem | apply Hfix; reflexivity].
Defined.

(** C5, as stated, fails: the text ['\ud800'] is a well-formed value on which
    [strings2utf8] raises [UnicodeEncodeError]. *)
Lemma strings2utf8_raises_counterexample :
  well_formed lone_surrogate = true /\
  strings2utf8 lone_surrogate = Raise (UnicodeEncodeError [0xD800] 0).
Proof. split; reflexivity. Qed.

(** C5 (amended): on a well-formed value [strings2utf8] returns exactly when
    no text leaf of it holds a surrogate code point, and otherwise raises
    [UnicodeEncodeError], never another exception; a value of any other kind
    is returned as it is; [tuple2dict] returns a dict for every namedtuple. *)
Theorem conversions_total :
  (forall x, well_formed x = true ->
             (encodable x = true <-> exists y, strings2utf8 x = Ok y)) /\
  (forall x e, well_formed x = true -> strings2utf8 x = Raise e ->
               exists object start, e = UnicodeEncodeError object start) /\
  (forall id, strings2utf8 (PObj id) = Ok (PObj id)) /\
  (forall data, exists d, tuple2dict data = Ok (PDict d)).
Proof.
  split; [exact strings2utf8_returns_iff|].
  split; [intros x e Hwf; apply strings2utf8_raises, Hwf|].
  split; [reflexivity|].
  intros data. rewrite tuple2dict_eq. eauto.
Qed.

Lemma conversions_total_witness :
  well_formed sample_value = true /\ encodable sample_value = true /\
  exists y, strings2utf8 sample_value = Ok y.
Proof.
  split; [reflexivity|]. split; [reflexivity|].
  destruct conversions_total as [Hiff _].
  apply (Hiff sample_value); reflexivity.
Defined.

(** [re_encoded x y]: [y] is [x] re-encoded at every depth.  A text is
    replaced by its UTF-8 octets and every other scalar is the same; a list
    or a tuple is re-encoded element by element; a dict is the dict of its
    re-encoded entries stored in order, so that of two entries whose
    re-encoded keys are equal the first gives the key and the last the
    value. *)
Unset Elimination Schemes.
Inductive re_encoded : pyval -> pyval -> Prop :=
| re_none : re_encoded PNone PNone
| re_bool b : re_encoded (PBool b) (PBool b)
| re_int n : re_encoded (PInt n) (PInt n)
| re_bytes b : re_encoded (PBytes b) (PBytes b)
| re_obj i : re_encoded (PObj i) (PObj i)
| re_str s b : encode_utf8 s = Ok b -> re_encoded (PStr s) (PBytes b)
| re_list xs ys : Forall2 re_encoded xs ys -> re_encoded (PList xs) (PList ys)
| re_tuple xs ys : Forall2 re_encoded xs ys -> re_encoded (PTuple xs) (PTuple ys)
| re_dict xs pairs :
    Forall2 (fun kv kv' => re_encoded (fst kv) (fst kv') /\
                           re_encoded (snd kv) (snd kv')) xs pairs ->
    re_encoded (PDict xs) (PDict (store_all [] pairs)).
Set Elimination Schemes.

(** What [strings2utf8] returns is the argument re-encoded. *)
Lemma strings2utf8_re_encoded (x : pyval) :
  forall y, strings2utf8 x = Ok y -> re_encoded x y.
Proof.
  induction x as [| | | s | |items IH|items IH|items IH|] using pyval_ind;
    intros y H; try (injection H as <-; constructor).
  - simpl in H. bind_inv H. injection H as <-. constructor. assumption.
  - apply strings2utf8_list_ok in H. destruct H as (ys & -> & HF).
    constructor. clear -IH HF. revert ys HF.
    induction IH; intros ys HF; inversion HF; subst; constructor; auto.
  - apply strings2utf8_tuple_ok in H. destruct H as (ys & -> & HF).
    constructor. clear -IH HF. revert ys HF.
    induction IH; intros ys HF; inversion HF; subst; constructor; auto.
  - apply strings2utf8_dict_ok in H. destruct H as (pairs & HF & _ & ->).
    constructor. clear -IH HF. revert pairs HF.
    induction IH as [|[k v] items [IHk IHv] _ IHitems]; intros pairs HF;
      inversion HF as [|? [k' v'] ? ? [Hk Hv] HF']; subst; constructor.
    + split; simpl in *; auto.
    + auto.
Qed.

Lemma Forall2_unique {A B : Type} (R : A -> B -> Prop) (xs : list A) :
  Forall (fun x => forall y y', R x y -> R x y' -> y = y') xs ->
  forall ys ys', Forall2 R xs ys -> Forall2 R xs ys' -> ys = ys'.
Proof.
  induction 1 as [|x xs Hx _ IH]; intros ys ys' H H';
    inversion H; subst; inversion H'; subst; [reflexivity|].
  f_equal; eauto.
Qed.

(** A value is re-encoded in one way only. *)
Lemma re_encoded_unique (x : pyval) :
  forall y y', re_encoded x y -> re_encoded x y' -> y = y'.
Proof.
  induction x as [| | | s | |items IH|items IH|items IH|] using pyval_ind;
    intros y y' H H'; inversion H; subst; inversion H'; subst;
    try reflexivity.
  - congruence.
  - f_equal. eapply Forall2_unique; eassumption.
  - f_equal. eapply Forall2_unique; eassumption.
  - do 2 f_equal.
    eapply (Forall2_unique
              (fun kv kv' => re_encoded (fst kv) (fst kv') /\
                             re_encoded (snd kv) (snd kv'))); [|eassumption..].
    eapply Forall_impl; [exact IH|].
    intros [k v] [IHk IHv] [k1 v1] [k2 v2] [Hk1 Hv1] [Hk2 Hv2]. simpl in *.
    f_equal; auto.
Qed.

Lemma last_value_in (pairs : dict_items) (k : pyval) :
  In k (dict_keys pairs) -> key_eqb k k = true ->
  exists v, last_value pairs k = Some v.
Proof.
  intros Hin Hk. induction pairs as [|[k0 v0] pairs IH]; [destruct Hin|].
  simpl. destruct (last_value pairs k) as [v|] eqn:Hl; [eauto|].
  destruct Hin as [Heq | Hin].
  - simpl in Heq. subst k0. rewrite Hk. eauto.
  - destruct (IH Hin) as [v Hv]. discriminate Hv.
Qed.

(** A dict with the keys ['a'], [b'a'] and [7]. *)
Definition mixed_keys_dict : pyval :=
  PDict [(PStr (str_lit "a"), PStr (str_lit "x"));
         (PInt 7, PStr (str_lit "y"));
         (PBytes (bytes_lit "a"), PStr (str_lit "z"))].

(** A dict with the key [('a', 1)], a tuple, and a list as the value. *)
Definition tuple_key_dict : pyval :=
  PDict [(PTuple [PStr (str_lit "a"); PInt 1], PList [PStr (str_lit "x")])].

(** C6, as stated, fails: the key [('a', 1)] is not a text, and it does not
    pass through unchanged: [strings2utf8] re-encodes it to [(b'a', 1)]. *)
Lemma strings2utf8_dict_counterexample :
  well_formed tuple_key_dict = true /\
  (forall t, PTuple [PStr (str_lit "a"); PInt 1] <> PStr t) /\
  strings2utf8 tuple_key_dict =
    Ok (PDict [(PTuple [PBytes (bytes_lit "a"); PInt 1],
                PList [PBytes (bytes_lit "x")])]) /\
  PTuple [PBytes (bytes_lit "a"); PInt 1] <> PTuple [PStr (str_lit "a"); PInt 1].
Proof.
  split; [reflexivity|]. split; [discriminate|]. split; [reflexivity|].
  discriminate.
Qed.

(** C6 (amended): applied to a dict, [strings2utf8] returns a dict made from
    the re-encoded entries ([pairs]: each key and each value of the argument
    re-encoded at every depth).  A key that holds no text is the key itself,
    a text key is its octets, and a tuple key is re-encoded element by
    element.  The keys of the result are the re-encoded keys, each of them
    is found in the result, and under each key the result holds the
    re-encoded value of the last entry whose re-encoded key is equal. *)
Theorem strings2utf8_dict (items : dict_items) :
  well_formed (PDict items) = true -> encodable (PDict items) = true ->
  exists pairs d,
    strings2utf8 (PDict items) = Ok (PDict d) /\
    Forall2 (fun kv kv' => re_encoded (fst kv) (fst kv') /\
                           re_encoded (snd kv) (snd kv')) items pairs /\
    Forall2 (fun kv kv' =>
               (no_text (fst kv) = true -> fst kv' = fst kv) /\
               (forall t, fst kv = PStr t ->
                          exists b, encode_utf8 t = Ok b /\ fst kv' = PBytes b) /\
               (forall ks, fst kv = PTuple ks ->
                           exists ks', fst kv' = PTuple ks' /\
                                       Forall2 re_encoded ks ks'))
            items pairs /\
    (forall k, In k (dict_keys d) -> In k (dict_keys pairs)) /\
    (forall k, In k (dict_keys pairs) -> exists v, dict_get d k = Some v) /\
    (forall k, hashable k = true -> dict_get d k = last_value pairs k).
Proof.
  intros Hwf Henc.
  destruct (proj1 (strings2utf8_returns_iff _ Hwf) Henc) as [y Hy].
  destruct (strings2utf8_dict_ok items y Hy) as (pairs & HF & Hh & ->).
  assert (Hget : forall k, hashable k = true ->
                           dict_get (store_all [] pairs) k = last_value pairs k).
  { intros k Hk. rewrite dict_get_store_all by (reflexivity || assumption).
    destruct (last_value pairs k); reflexivity. }
  exists pairs, (store_all [] pairs). split; [exact Hy|].
  split; [|split; [|split; [|split]]].
  - eapply Forall2_impl; [exact HF|]. intros [k v] [k' v'] [Hk Hv]. simpl in *.
    split; apply strings2utf8_re_encoded; assumption.
  - simpl in Hwf. apply andb_true_iff in Hwf. destruct Hwf as [Hwf _].
    rewrite forallb_true_Forall in Hwf. clear -HF Hwf.
    induction HF as [|[k v] [k' v'] items pairs [Hk Hv] _ IH]; [constructor|].
    inversion Hwf as [|? ? Hkv Hwf']; subst. constructor; [|auto].
    simpl in *. apply andb_true_iff in Hkv. destruct Hkv as [Hkv _].
    apply andb_true_iff in Hkv. destruct Hkv as [Hwk _]. split; [|split].
    + intros Hnt. rewrite (strings2utf8_no_text k Hwk Hnt) in Hk. congruence.
    + intros t ->. simpl in Hk. bind_inv Hk. injection Hk as <-. eauto.
    + intros ks ->. apply strings2utf8_re_encoded in Hk.
      inversion Hk; subst. eauto.
  - intros k Hin. apply store_all_keys_in in Hin. destruct Hin as [[]|Hin].
    exact Hin.
  - intros k Hin.
    assert (Hk : hashable k = true).
    { rewrite forallb_true_Forall, List.Forall_forall in Hh.
      unfold dict_keys in Hin. apply in_map_iff in Hin.
      destruct Hin as (kv & <- & Hkv). apply Hh, Hkv. }
    rewrite (Hget k Hk). apply last_value_in; [exact Hin|].
    apply key_eqb_refl, Hk.
  - exact Hget.
Qed.

Lemma strings2utf8_dict_witness :
  well_formed mixed_keys_dict = true /\ encodable mixed_keys_dict = true /\
  strings2utf8 mixed_keys_dict =
    Ok (PDict [(PBytes (bytes_lit "a"), PBytes (bytes_lit "z"));
               (PInt 7, PBytes (bytes_lit "y"))]) /\
  exists pairs d,
    strings2utf8 mixed_keys_dict = Ok (PDict d) /\
    Forall2 (fun kv kv' => re_encoded (fst kv) (fst kv') /\
                           re_encoded (snd kv) (snd kv'))
      [(PStr (str_lit "a"), PStr (str_lit "x"));
       (PInt 7, PStr (str_lit "y"));
       (PBytes (bytes_lit "a"), PStr (str_lit "z"))] pairs /\
    Forall2 (fun kv kv' =>
               (no_text (fst kv) = true -> fst kv' = fst kv) /\
               (forall t, fst kv = PStr t ->
                          exists b, encode_utf8 t = Ok b /\ fst kv' = PBytes b) /\
               (forall ks, fst kv = PTuple ks ->
                           exists ks', fst kv' = PTuple ks' /\
                                       Forall2 re_encoded ks ks'))
      [(PStr (str_lit "a"), PStr (str_lit "x"));
       (PInt 7, PStr (str_lit "y"));
       (PBytes (bytes_lit "a"), PStr (str_lit "z"))] pairs /\
    (forall k, In k (dict_keys d) -> In k (dict_keys pairs)) /\
    (forall k, In k (dict_keys pairs) -> exists v, dict_get d k = Some v) /\
    (forall k, hashable k = true -> dict_get d k = last_value pairs k).
Proof.
  split; [reflexivity|]. split; [reflexivity|]. split; [reflexivity|].
  apply (strings2utf8_dict
           [(PStr (str_lit "a"), PStr (str_lit "x"));
            (PInt 7, PStr (str_lit "y"));
            (PBytes (bytes_lit "a"), PStr (str_lit "z"))]); reflexivity.
Defined.

(** C7: for the empty line, which the parser classifies as the variant
    [empty] without fields, [line2dict] returns the dict with the one key
    ['type'] and the value ['empty'], both as byte strings:
    [{b'type': b'empty'}]. *)
Theorem line2dict_empty (parse_line : pyval -> result namedtuple) (line : pyval) :
  parse_line line = Ok empty_line ->
  line2dict parse_line line =
  Ok (PDict [(PBytes (bytes_lit "type"), PBytes (bytes_lit "empty"))]).
Proof. intros H. unfold line2dict. rewrite H. reflexivity. Qed.

Lemma line2dict_empty_witness :
  parse_line_double (PStr []) = Ok empty_line /\
  line2dict parse_line_double (PStr []) =
  Ok (PDict [(PBytes (bytes_lit "type"), PBytes (bytes_lit "empty"))]).
Proof.
  split; [reflexivity|].
  apply (line2dict_empty parse_line_double (PStr [])). reflexivity.
Defined.

(** C8: neither function mutates its argument.  Whatever [strings2utf8]
    returns or raises, every object of the store from before the call is the
    same after it; on a reference that stands for a value the call
    terminates, the reference still stands for that value, and the result is
    made of objects that did not exist before.  [tuple2dict] always returns a
    new dict and leaves every object as it was; the values of the new dict
    are the values of the namedtuple and the class name. *)
Theorem conversions_do_not_mutate :
  (forall fuel data h h' r,
     strings2utf8_h fuel data h = Some (h', r) -> unchanged h h') /\
  (forall h v x,
     denotes 0 h v x ->
     exists fuel h' r,
       strings2utf8_h fuel v h = Some (h', r) /\ unchanged h h' /\
       denotes 0 h' v x /\ outcome (length h) h' r (strings2utf8 x)) /\
  (forall data h,
     exists h' d,
       tuple2dict_h data h = Some (h', Ok (HRef (S (length h)))) /\
       unchanged h h' /\
       h' !! S (length h) = Some (ODict d) /\
       Forall (fun e => In (snd e) (values_h data) \/
                        snd e = HStr (class_name_h data)) d).
Proof.
  split; [|split].
  - intros fuel data h h' r H. eapply prefix_unchanged, strings2utf8_h_frame, H.
  - intros h v x Hden. destruct (strings2utf8_h_agrees x) as [m Hm].
    destruct (Hm m (le_n m) h v Hden) as (h' & r & Hrun & Hout).
    pose proof (strings2utf8_h_frame _ _ _ _ _ Hrun) as Hp.
    exists m, h', r. split; [exact Hrun|]. split; [apply prefix_unchanged, Hp|].
    split; [eapply denotes_prefix; eauto | exact Hout].
  - intros data h. destruct (tuple2dict_h_returns data h) as (h' & Hrun & Hl).
    exists h'. eexists. split; [exact Hrun|].
    split; [eapply prefix_unchanged, tuple2dict_h_frame, Hrun|].
    split; [exact Hl|].
    pose proof (dict_store_h_Forall (fun _ => True)
                  (fun v => In v (values_h data) \/ v = HStr (class_name_h data)))
      as Hstore.
    pose proof (store_all_h_Forall (fun _ => True)
                  (fun v => In v (values_h data) \/ v = HStr (class_name_h data)))
      as Hall.
    simpl in Hstore, Hall.
    eapply Forall_impl; [apply Hstore|]; [| exact I | right; reflexivity |].
    + apply Hall; [constructor|]. apply Hall; [constructor|].
      eapply Forall_impl; [apply field_items_h_values|].
      intros e He. auto.
    + intros e [_ He]. exact He.
Qed.

Lemma conversions_do_not_mutate_witness :
  denotes 0 sample_heap (HRef 0) sample_heap_value /\
  exists fuel h' r,
    strings2utf8_h fuel (HRef 0) sample_heap = Some (h', r) /\
    unchanged sample_heap h' /\
    denotes 0 h' (HRef 0) sample_heap_value /\
    outcome (length sample_heap) h' r (strings2utf8 sample_heap_value).
Proof.
  split; [exact sample_heap_denotes|].
  apply (proj1 (proj2 conversions_do_not_mutate)). exact sample_heap_denotes.
Defined.


(** A namedtuple class with a field named ['type']. *)
Definition typed_tuple : namedtuple :=
  {| class_name := str_lit "filter";
     fields := [str_lit "text"; str_lit "type"; str_lit "action"];
     values := [PStr (str_lit "abc"); PInt 3; PStr (str_lit "block")] |}.

(** C9: when the namedtuple has a field named ['type'], the dict returned by
    [tuple2dict] is the dict of the fields with the value of that field
    replaced by the class name: ['type'] holds the class name, the value of
    the field is gone, and there are as many entries as fields. *)
Theorem tuple2dict_type_field (data : namedtuple) :
  well_formed_nt data ->
  In (str_lit "type") (fields data) ->
  exists d,
    tuple2dict data = Ok (PDict d) /\
    d = map (fun kv => if key_eqb (fst kv) (PStr (str_lit "type"))
                       then (fst kv, PStr (class_name data)) else kv)
            (combine (map PStr (fields data)) (values data)) /\
    dict_get d (PStr (str_lit "type")) = Some (PStr (class_name data)) /\
    length d = length (fields data).
Proof.
  intros Hwf Hin. pose proof Hwf as [Hlen Hnd].
  rewrite (tuple2dict_fields data Hwf). eexists. split; [reflexivity|].
  fold type_key. split; [|split].
  - unfold field_items, type_key.
    apply dict_store_present; assumption.
  - apply dict_get_store_same. reflexivity.
  - rewrite dict_store_length, (field_items_keys data Hlen).
    destruct (fresh_key (map PStr (fields data)) type_key) eqn:Hf.
    + apply fresh_key_str in Hf. contradiction.
    + unfold field_items. rewrite length_combine, length_map. lia.
Qed.

Lemma tuple2dict_type_field_witness :
  well_formed_nt typed_tuple /\ In (str_lit "type") (fields typed_tuple) /\
  tuple2dict typed_tuple =
  Ok (PDict [(PStr (str_lit "text"), PStr (str_lit "abc"));
             (PStr (str_lit "type"), PStr (str_lit "filter"));
             (PStr (str_lit "action"), PStr (str_lit "block"))]).
Proof.
  assert (Hwf : well_formed_nt typed_tuple).
  { split; [reflexivity | compute_done]. }
  assert (Hin : In (str_lit "type") (fields typed_tuple))
    by (right; left; reflexivity).
  split; [exact Hwf|]. split; [exact Hin|].
  destruct (tuple2dict_type_field typed_tuple Hwf Hin) as (d & -> & -> & _).
  reflexivity.
Defined.



(** * Further properties of the bridge and of its tests *)

(** ** [check_data_utf8] of [tests/test_rpy.py] *)

Section ForEach.
Variable f : pyval -> result unit.

(** [for item in items: f(item)] *)
Fixpoint for_each (items : list pyval) : result unit :=
  match items with
  | [] => Ok tt
  | v :: rest => _ <- f v ;; for_each rest
  end.

(** [for key, value in items: f(key); f(value)] *)
Fixpoint for_each_item (items : dict_items) : result unit :=
  match items with
  | [] => Ok tt
  | (k, v) :: rest => _ <- f k ;; _ <- f v ;; for_each_item rest
  end.
End ForEach.

(** [AssertionError('{} is str. Expected bytes.'.format(data))] *)
Definition str_found (s : text) : exn :=
  OtherError (str_lit "AssertionError") (s ++ str_lit " is str. Expected bytes.").

Fixpoint check_data_utf8 (data : pyval) : result unit :=
  match data with
  | PDict items => for_each_item check_data_utf8 items
  | PList items | PTuple items => for_each check_data_utf8 items
  | PStr s => Raise (str_found s)
  | _ => Ok tt
  end.

Lemma for_each_ok (f : pyval -> result unit) (items : list pyval) :
  for_each f items = Ok tt <-> Forall (fun v => f v = Ok tt) items.
Proof.
  induction items as [|v items IH]; simpl.
  - split; [constructor | reflexivity].
  - split.
    + intros H. bind_inv H. destruct a. constructor; [assumption | tauto].
    + intros H. inversion H as [|? ? Hv Hrest]; subst. rewrite Hv. simpl. tauto.
Qed.

Lemma for_each_item_ok (f : pyval -> result unit) (items : dict_items) :
  for_each_item f items = Ok tt <->
  Forall (fun kv => f (fst kv) = Ok tt /\ f (snd kv) = Ok tt) items.
Proof.
  induction items as [|[k v] items IH]; simpl.
  - split; [constructor | reflexivity].
  - split.
    + intros H. bind_inv H. bind_inv H. destruct a, a0.
      constructor; [split; assumption | tauto].
    + intros H. inversion H as [|? ? [Hk Hv] Hrest]; subst. simpl in *.
      rewrite Hk, Hv. simpl. tauto.
Qed.

Lemma for_each_raise (f : pyval -> result unit) (items : list pyval) (e : exn) :
  for_each f items = Raise e -> exists v, In v items /\ f v = Raise e.
Proof.
  induction items as [|v items IH]; simpl; [discriminate|].
  intros H. apply bind_raise in H. destruct H as [H | (u & _ & H)].
  - exists v. auto.
  - destruct (IH H) as (v' & Hin & Hv'). exists v'. auto.
Qed.

Lemma for_each_item_raise (f : pyval -> result unit) (items : dict_items)
  (e : exn) :
  for_each_item f items = Raise e ->
  exists k v, In (k, v) items /\ (f k = Raise e \/ f v = Raise e).
Proof.
  induction items as [|[k v] items IH]; simpl; [discriminate|].
  intros H. apply bind_raise in H. destruct H as [H | (u & _ & H)].
  { exists k, v. auto. }
  apply bind_raise in H. destruct H as [H | (u' & _ & H)].
  { exists k, v. auto. }
  destruct (IH H) as (k' & v' & Hin & Hcase). exists k', v'. auto.
Qed.

Lemma check_data_utf8_no_text (v : pyval) :
  (check_data_utf8 v = Ok tt <-> no_text v = true) /\
  (forall e, check_data_utf8 v = Raise e -> exists s, e = str_found s).
Proof.
  induction v as [| | | s | |items IH|items IH|items IH|] using pyval_ind;
    try (split; [split; reflexivity | discriminate]).
  - split; [split; discriminate|]. intros e H. injection H as <-. eauto.
  - split.
    + simpl. rewrite for_each_ok, forallb_true_Forall.
      induction IH as [|x xs [Hx _] _ IHxs]; [split; constructor|].
      split; intros H; inversion H; subst; constructor; tauto.
    + simpl. intros e H. apply for_each_raise in H. destruct H as (x & Hin & Hx).
      rewrite List.Forall_forall in IH. eapply (proj2 (IH x Hin)), Hx.
  - split.
    + simpl. rewrite for_each_ok, forallb_true_Forall.
      induction IH as [|x xs [Hx _] _ IHxs]; [split; constructor|].
      split; intros H; inversion H; subst; constructor; tauto.
    + simpl. intros e H. apply for_each_raise in H. destruct H as (x & Hin & Hx).
      rewrite List.Forall_forall in IH. eapply (proj2 (IH x Hin)), Hx.
  - split.
    + simpl. rewrite for_each_item_ok, forallb_true_Forall.
      induction IH as [|[k x] xs [[Hk _] [Hx _]] _ IHxs]; [split; constructor|].
      simpl in *. split; intros H; inversion H; subst; constructor;
        try tauto; rewrite ?andb_true_iff in *; tauto.
    + simpl. intros e H. apply for_each_item_raise in H.
      destruct H as (k & x & Hin & Hcase).
      rewrite List.Forall_forall in IH. destruct (IH _ Hin) as [[_ Hk] [_ Hx]].
      simpl in *. destruct Hcase; eauto.
Qed.

(** X1: [check_data_utf8] returns exactly on the values that hold no text
    anywhere (keys included), and what it raises otherwise is the
    [AssertionError] that names a text. *)
Theorem check_data_utf8_accepts (v : pyval) :
  (check_data_utf8 v = Ok tt <-> no_text v = true) /\
  (forall e, check_data_utf8 v = Raise e -> exists s, e = str_found s).
Proof. apply check_data_utf8_no_text. Qed.

Lemma check_data_utf8_accepts_witness :
  check_data_utf8 sample_value = Raise (str_found (str_lit "foo")) /\
  exists s, Raise (A := unit) (str_found (str_lit "foo")) = Raise (str_found s).
Proof.
  split; [reflexivity|].
  destruct (proj2 (check_data_utf8_accepts sample_value)
              (str_found (str_lit "foo")) eq_refl) as [s Hs].
  exists s. rewrite Hs. reflexivity.
Defined.

(** X2: whatever the argument (well formed or not), a result of
    [strings2utf8] passes [check_data_utf8] and is a well-formed value: the
    keys of its dicts are hashable and pairwise different. *)
Theorem strings2utf8_passes_check (x y : pyval) :
  strings2utf8 x = Ok y ->
  check_data_utf8 y = Ok tt /\ well_formed y = true.
Proof.
  intros H. destruct (strings2utf8_output x y H) as [Hwf Hnt].
  split; [apply check_data_utf8_no_text, Hnt | exact Hwf].
Qed.

Lemma strings2utf8_passes_check_witness :
  exists y, strings2utf8 colliding_dict = Ok y /\
            check_data_utf8 y = Ok tt /\ well_formed y = true.
Proof.
  exists (PDict [(PBytes (bytes_lit "a"), PInt 2)]).
  split; [reflexivity|].
  apply (strings2utf8_passes_check colliding_dict). reflexivity.
Defined.

(** ** More on [tuple2dict] *)

Lemma dict_get_field (names : list text) :
  NoDup names ->
  forall (vals : list pyval) (i : nat) (f : text) (v : pyval),
    names !! i = Some f -> vals !! i = Some v ->
    dict_get (combine (map PStr names) vals) (PStr f) = Some v.
Proof.
  induction 1 as [|g names Hg _ IH]; intros vals i f v Hf Hv;
    [discriminate Hf|].
  destruct vals as [|w vals]; [discriminate Hv|].
  cbn [map combine dict_get]. destruct i as [|i]; simpl in Hf, Hv.
  - injection Hf as ->. injection Hv as ->.
    rewrite (proj2 (key_eqb_str f f) eq_refl). reflexivity.
  - destruct (key_eqb (PStr g) (PStr f)) eqn:Heq.
    + apply key_eqb_str in Heq. subst g. exfalso. apply Hg.
      eapply list_elem_of_lookup_2, Hf.
    + eapply IH; eassumption.
Qed.

(** X3: [tuple2dict] keeps the value of every field under the name of the
    field (the field ['type'] apart); and when no field is named ['type'],
    the dict is the fields in their order followed by ['type']. *)
Theorem tuple2dict_field_values (data : namedtuple) :
  well_formed_nt data ->
  exists d,
    tuple2dict data = Ok (PDict d) /\
    (forall i f v,
        fields data !! i = Some f -> values data !! i = Some v ->
        f <> str_lit "type" -> dict_get d (PStr f) = Some v) /\
    (~ In (str_lit "type") (fields data) ->
     d = combine (map PStr (fields data)) (values data)
           ++ [(PStr (str_lit "type"), PStr (class_name data))]).
Proof.
  intros Hwf. pose proof Hwf as [Hlen Hnd].
  rewrite (tuple2dict_fields data Hwf). eexists. split; [reflexivity|].
  fold type_key. split.
  - intros i f v Hf Hv Hne.
    rewrite dict_get_store; try reflexivity; [|apply str_keys_hashable].
    destruct (key_eqb type_key (PStr f)) eqn:Heq.
    + apply key_eqb_str in Heq. congruence.
    + eapply dict_get_field; eassumption.
  - intros Hnin. apply (dict_store_fresh (field_items data)).
    rewrite (field_items_keys data Hlen). apply fresh_key_str, Hnin.
Qed.

Lemma tuple2dict_field_values_witness :
  well_formed_nt sample_tuple /\
  ~ In (str_lit "type") (fields sample_tuple) /\
  exists d,
    tuple2dict sample_tuple = Ok (PDict d) /\
    dict_get d (PStr (str_lit "bar")) = Some sample_options /\
    d = combine (map PStr (fields sample_tuple)) (values sample_tuple)
          ++ [(PStr (str_lit "type"), PStr (class_name sample_tuple))].
Proof.
  assert (Hwf : well_formed_nt sample_tuple)
    by (split; [reflexivity | compute_done]).
  assert (Hnin : ~ In (str_lit "type") (fields sample_tuple))
    by (intros [H | [H | []]]; discriminate H).
  split; [exact Hwf|]. split; [exact Hnin|].
  destruct (tuple2dict_field_values sample_tuple Hwf) as (d & Hd & Hget & Hfresh).
  exists d. split; [exact Hd|]. split; [|exact (Hfresh Hnin)].
  apply (Hget 1%nat); [reflexivity | reflexivity | discriminate].
Defined.

(** ** The codec, both ways *)

Lemma octet_to_N (n : N) : n < 256 -> Byte.to_N (octet n) = n.
Proof.
  intros Hn. unfold octet. destruct (Byte.of_N n) as [b|] eqn:Hb.
  - apply Byte.to_of_N, Hb.
  - apply Byte.of_N_None_iff in Hb. lia.
Qed.

Lemma land_low_zero (a b n : N) : b < 2 ^ n -> N.land (a * 2 ^ n) b = 0.
Proof.
  intros Hb. apply N.bits_inj_0. intros m. rewrite N.land_spec.
  destruct (N.lt_ge_cases m n) as [Hm | Hm].
  - rewrite N.mul_pow2_bits_low by exact Hm. reflexivity.
  - assert (Hbm : N.testbit b m = false).
    { rewrite <- (N.add_0_l m), <- N.div_pow2_bits, N.div_small; [reflexivity|].
      eapply N.lt_le_trans; [exact Hb|]. apply N.pow_le_mono_r; lia. }
    rewrite Hbm. apply andb_false_r.
Qed.

(** Bits set in disjoint places add up. *)
Lemma lor_add (a b n : N) : b < 2 ^ n -> N.lor (a * 2 ^ n) b = a * 2 ^ n + b.
Proof.
  intros Hb. pose proof (land_low_zero a b n Hb) as H0.
  rewrite N.add_nocarry_lxor by exact H0. symmetry. apply N.lxor_lor, H0.
Qed.

Lemma shiftr_div (c k : N) : N.shiftr c k = c / 2 ^ k.
Proof. apply N.shiftr_div_pow2. Qed.

Lemma shiftl_mul (c k : N) : N.shiftl c k = c * 2 ^ k.
Proof. apply N.shiftl_mul_pow2. Qed.

Lemma land_mod (c k : N) : N.land c (N.ones k) = c mod 2 ^ k.
Proof. apply N.land_ones. Qed.

(** Linear arithmetic with divisions by constants. *)
Ltac euclid := zify; Z.to_euclidean_division_equations; lia.

Definition decode_error (reason : string) : exn :=
  OtherError (str_lit "UnicodeDecodeError") (str_lit reason).

Definition in_range (lo hi b : N) : bool := (lo <=? b) && (b <=? hi).

(** The second octet of a sequence of three: no overlong form ([E0]) and no
    surrogate ([ED]). *)
Definition second_of_three (b0 b1 : N) : bool :=
  if b0 =? 0xE0 then in_range 0xA0 0xBF b1
  else if b0 =? 0xED then in_range 0x80 0x9F b1
  else in_range 0x80 0xBF b1.

(** The second octet of a sequence of four: no overlong form ([F0]) and
    nothing above U+10FFFF ([F4]). *)
Definition second_of_four (b0 b1 : N) : bool :=
  if b0 =? 0xF0 then in_range 0x90 0xBF b1
  else if b0 =? 0xF4 then in_range 0x80 0x8F b1
  else in_range 0x80 0xBF b1.

Definition low6 (b : N) : N := N.land b 0x3F.

(** [b.decode('utf-8')], with the strict error handler: the code points, or
    [UnicodeDecodeError] with the reason the codec gives at the first octet
    that is wrong. *)
Fixpoint decode_utf8 (b : bytes) : result text :=
  match b with
  | [] => Ok []
  | o0 :: rest =>
      let b0 := Byte.to_N o0 in
      if b0 <? 0x80 then tl <- decode_utf8 rest ;; Ok (b0 :: tl)
      else if b0 <? 0xC2 then Raise (decode_error "invalid start byte")
      else if b0 <? 0xE0 then
        match rest with
        | [] => Raise (decode_error "unexpected end of data")
        | o1 :: rest1 =>
            let b1 := Byte.to_N o1 in
            if in_range 0x80 0xBF b1 then
              tl <- decode_utf8 rest1 ;;
              Ok (N.lor (N.shiftl (N.land b0 0x1F) 6) (low6 b1) :: tl)
            else Raise (decode_error "invalid continuation byte")
        end
      else if b0 <? 0xF0 then
        match rest with
        | [] => Raise (decode_error "unexpected end of data")
        | o1 :: rest1 =>
            let b1 := Byte.to_N o1 in
            if second_of_three b0 b1 then
              match rest1 with
              | [] => Raise (decode_error "unexpected end of data")
              | o2 :: rest2 =>
                  let b2 := Byte.to_N o2 in
                  if in_range 0x80 0xBF b2 then
                    tl <- decode_utf8 rest2 ;;
                    Ok (N.lor (N.shiftl (N.land b0 0x0F) 12)
                          (N.lor (N.shiftl (low6 b1) 6) (low6 b2)) :: tl)
                  else Raise (decode_error "invalid continuation byte")
              end
            else Raise (decode_error "invalid continuation byte")
        end
      else if b0 <? 0xF5 then
        match rest with
        | [] => Raise (decode_error "unexpected end of data")
        | o1 :: rest1 =>
            let b1 := Byte.to_N o1 in
            if second_of_four b0 b1 then
              match rest1 with
              | [] => Raise (decode_error "unexpected end of data")
              | o2 :: rest2 =>
                  let b2 := Byte.to_N o2 in
                  if in_range 0x80 0xBF b2 then
                    match rest2 with
                    | [] => Raise (decode_error "unexpected end of data")
                    | o3 :: rest3 =>
                        let b3 := Byte.to_N o3 in
                        if in_range 0x80 0xBF b3 then
                          tl <- decode_utf8 rest3 ;;
                          Ok (N.lor (N.shiftl (N.land b0 0x07) 18)
                                (N.lor (N.shiftl (low6 b1) 12)
                                   (N.lor (N.shiftl (low6 b2) 6) (low6 b3)))
                                :: tl)
                        else Raise (decode_error "invalid continuation byte")
                    end
                  else Raise (decode_error "invalid continuation byte")
              end
            else Raise (decode_error "invalid continuation byte")
        end
      else Raise (decode_error "invalid start byte")
  end.


(** The value of each octet that the encoder makes. *)
Lemma lead_two (c : N) :
  c < 0x800 -> Byte.to_N (octet (N.lor 0xC0 (N.shiftr c 6))) = 0xC0 + c / 64.
Proof.
  intros Hc. rewrite shiftr_div. change (2 ^ 6) with 64.
  change 0xC0 with (6 * 2 ^ 5). rewrite lor_add by (change (2 ^ 5) with 32; euclid).
  change (6 * 2 ^ 5) with 192. apply octet_to_N. euclid.
Qed.

Lemma lead_three (c : N) :
  c < 0x10000 -> Byte.to_N (octet (N.lor 0xE0 (N.shiftr c 12))) = 0xE0 + c / 4096.
Proof.
  intros Hc. rewrite shiftr_div. change (2 ^ 12) with 4096.
  change 0xE0 with (14 * 2 ^ 4). rewrite lor_add by (change (2 ^ 4) with 16; euclid).
  change (14 * 2 ^ 4) with 224. apply octet_to_N. euclid.
Qed.

Lemma lead_four (c : N) :
  c < 0x110000 ->
  Byte.to_N (octet (N.lor 0xF0 (N.shiftr c 18))) = 0xF0 + c / 262144.
Proof.
  intros Hc. rewrite shiftr_div. change (2 ^ 18) with 262144.
  change 0xF0 with (30 * 2 ^ 3). rewrite lor_add by (change (2 ^ 3) with 8; euclid).
  change (30 * 2 ^ 3) with 240. apply octet_to_N. euclid.
Qed.

Lemma continuation (x : N) :
  Byte.to_N (octet (N.lor 0x80 (N.land x 0x3F))) = 0x80 + x mod 64.
Proof.
  change 0x3F with (N.ones 6). rewrite land_mod. change (2 ^ 6) with 64.
  change 0x80 with (2 * 2 ^ 6). rewrite lor_add by (change (2 ^ 6) with 64; euclid).
  change (2 * 2 ^ 6) with 128. apply octet_to_N. euclid.
Qed.

Lemma low6_continuation (x : N) : low6 (0x80 + x mod 64) = x mod 64.
Proof.
  unfold low6. change 0x3F with (N.ones 6). rewrite land_mod.
  change (2 ^ 6) with 64. euclid.
Qed.

Lemma decode_two (c : N) (rest : bytes) :
  0x80 <= c -> c < 0x800 ->
  decode_utf8 (octet (N.lor 0xC0 (N.shiftr c 6))
                 :: octet (N.lor 0x80 (N.land c 0x3F)) :: rest) =
  (tl <- decode_utf8 rest ;; Ok (c :: tl)).
Proof.
  intros Hlo Hhi. cbn [decode_utf8].
  rewrite (lead_two c Hhi), (continuation c), low6_continuation.
  destruct (N.ltb_spec (0xC0 + c / 64) 0x80); [euclid|].
  destruct (N.ltb_spec (0xC0 + c / 64) 0xC2); [euclid|].
  destruct (N.ltb_spec (0xC0 + c / 64) 0xE0); [|euclid].
  unfold in_range.
  destruct (N.leb_spec 0x80 (0x80 + c mod 64)); [|euclid].
  destruct (N.leb_spec (0x80 + c mod 64) 0xBF); [|euclid].
  cbn [andb].
  assert (Hcp : N.lor (N.shiftl (N.land (0xC0 + c / 64) 0x1F) 6) (c mod 64) = c).
  { change 0x1F with (N.ones 5). rewrite land_mod, shiftl_mul.
    rewrite lor_add by (change (2 ^ 6) with 64; euclid).
    change (2 ^ 5) with 32. change (2 ^ 6) with 64. euclid. }
  rewrite Hcp. reflexivity.
Qed.

Lemma decode_three (c : N) (rest : bytes) :
  0x800 <= c -> c < 0x10000 -> is_surrogate c = false ->
  decode_utf8 (octet (N.lor 0xE0 (N.shiftr c 12))
                 :: octet (N.lor 0x80 (N.land (N.shiftr c 6) 0x3F))
                 :: octet (N.lor 0x80 (N.land c 0x3F)) :: rest) =
  (tl <- decode_utf8 rest ;; Ok (c :: tl)).
Proof.
  intros Hlo Hhi Hsur. cbn [decode_utf8].
  assert (Hns : c < 0xD800 \/ 0xDFFF < c).
  { unfold is_surrogate in Hsur. apply andb_false_iff in Hsur.
    destruct Hsur as [H | H]; [left; apply N.leb_gt, H | right; apply N.leb_gt, H]. }
  rewrite (lead_three c Hhi), !continuation, !low6_continuation, shiftr_div.
  change (2 ^ 6) with 64.
  destruct (N.ltb_spec (0xE0 + c / 4096) 0x80); [euclid|].
  destruct (N.ltb_spec (0xE0 + c / 4096) 0xC2); [euclid|].
  destruct (N.ltb_spec (0xE0 + c / 4096) 0xE0); [euclid|].
  destruct (N.ltb_spec (0xE0 + c / 4096) 0xF0); [|euclid].
  assert (Hsecond : second_of_three (0xE0 + c / 4096) (0x80 + (c / 64) mod 64)
                    = true).
  { unfold second_of_three, in_range.
    destruct (N.eqb_spec (0xE0 + c / 4096) 0xE0);
      [|destruct (N.eqb_spec (0xE0 + c / 4096) 0xED)];
      apply andb_true_iff; split; apply N.leb_le; euclid. }
  rewrite Hsecond. unfold in_range.
  destruct (N.leb_spec 0x80 (0x80 + c mod 64)); [|euclid].
  destruct (N.leb_spec (0x80 + c mod 64) 0xBF); [|euclid].
  cbn [andb].
  assert (Hcp : N.lor (N.shiftl (N.land (0xE0 + c / 4096) 0x0F) 12)
                  (N.lor (N.shiftl ((c / 64) mod 64) 6) (c mod 64)) = c).
  { change 0x0F with (N.ones 4). rewrite land_mod, !shiftl_mul.
    rewrite (lor_add _ (c mod 64) 6) by (change (2 ^ 6) with 64; euclid).
    rewrite lor_add by (change (2 ^ 12) with 4096; change (2 ^ 6) with 64; euclid).
    change (2 ^ 4) with 16. change (2 ^ 6) with 64. change (2 ^ 12) with 4096.
    euclid. }
  rewrite Hcp. reflexivity.
Qed.

Lemma decode_four (c : N) (rest : bytes) :
  0x10000 <= c -> c < 0x110000 ->
  decode_utf8 (octet (N.lor 0xF0 (N.shiftr c 18))
                 :: octet (N.lor 0x80 (N.land (N.shiftr c 12) 0x3F))
                 :: octet (N.lor 0x80 (N.land (N.shiftr c 6) 0x3F))
                 :: octet (N.lor 0x80 (N.land c 0x3F)) :: rest) =
  (tl <- decode_utf8 rest ;; Ok (c :: tl)).
Proof.
  intros Hlo Hhi. cbn [decode_utf8].
  rewrite (lead_four c Hhi), !continuation, !low6_continuation, !shiftr_div.
  change (2 ^ 6) with 64. change (2 ^ 12) with 4096.
  destruct (N.ltb_spec (0xF0 + c / 262144) 0x80); [euclid|].
  destruct (N.ltb_spec (0xF0 + c / 262144) 0xC2); [euclid|].
  destruct (N.ltb_spec (0xF0 + c / 262144) 0xE0); [euclid|].
  destruct (N.ltb_spec (0xF0 + c / 262144) 0xF0); [euclid|].
  destruct (N.ltb_spec (0xF0 + c / 262144) 0xF5); [|euclid].
  assert (Hsecond : second_of_four (0xF0 + c / 262144) (0x80 + (c / 4096) mod 64)
                    = true).
  { unfold second_of_four, in_range.
    destruct (N.eqb_spec (0xF0 + c / 262144) 0xF0);
      [|destruct (N.eqb_spec (0xF0 + c / 262144) 0xF4)];
      apply andb_true_iff; split; apply N.leb_le; euclid. }
  rewrite Hsecond. unfold in_range.
  destruct (N.leb_spec 0x80 (0x80 + (c / 64) mod 64)); [|euclid].
  destruct (N.leb_spec (0x80 + (c / 64) mod 64) 0xBF); [|euclid].
  destruct (N.leb_spec 0x80 (0x80 + c mod 64)); [|euclid].
  destruct (N.leb_spec (0x80 + c mod 64) 0xBF); [|euclid].
  cbn [andb].
  assert (Hcp : N.lor (N.shiftl (N.land (0xF0 + c / 262144) 0x07) 18)
                  (N.lor (N.shiftl ((c / 4096) mod 64) 12)
                     (N.lor (N.shiftl ((c / 64) mod 64) 6) (c mod 64))) = c).
  { change 0x07 with (N.ones 3). rewrite land_mod, !shiftl_mul.
    rewrite (lor_add _ (c mod 64) 6) by (change (2 ^ 6) with 64; euclid).
    rewrite (lor_add _ _ 12)
      by (change (2 ^ 12) with 4096; change (2 ^ 6) with 64; euclid).
    rewrite lor_add
      by (change (2 ^ 18) with 262144; change (2 ^ 12) with 4096;
          change (2 ^ 6) with 64; euclid).
    change (2 ^ 3) with 8. change (2 ^ 6) with 64. change (2 ^ 12) with 4096.
    change (2 ^ 18) with 262144. euclid. }
  rewrite Hcp. reflexivity.
Qed.

Lemma decode_code_point (c : N) (bs rest : bytes) :
  utf8_code_point c = Some bs ->
  decode_utf8 (bs ++ rest) = (tl <- decode_utf8 rest ;; Ok (c :: tl)).
Proof.
  unfold utf8_code_point.
  destruct (N.ltb_spec c 0x80) as [H1|H1].
  { intros H. injection H as <-. cbn [app decode_utf8].
    rewrite octet_to_N by lia.
    destruct (N.ltb_spec c 0x80); [reflexivity | lia]. }
  destruct (N.ltb_spec c 0x800) as [H2|H2].
  { intros H. injection H as <-. apply decode_two; assumption. }
  destruct (is_surrogate c) eqn:Hs; [discriminate|].
  destruct (N.ltb_spec c 0x10000) as [H3|H3].
  { intros H. injection H as <-. apply decode_three; assumption. }
  destruct (N.ltb_spec c 0x110000) as [H4|H4]; [|discriminate].
  intros H. injection H as <-. apply decode_four; assumption.
Qed.

Lemma decode_utf8_from (whole : text) (s : text) :
  forall pos b, utf8_from whole pos s = Ok b -> decode_utf8 b = Ok s.
Proof.
  induction s as [|c s IH]; intros pos b H; simpl in H.
  - injection H as <-. reflexivity.
  - destruct (utf8_code_point c) as [bs|] eqn:Hc; [|discriminate].
    bind_inv H. injection H as <-.
    rewrite (decode_code_point c bs a Hc), (IH _ _ Ha). reflexivity.
Qed.

Lemma utf8_code_point_length (c : N) (bs : bytes) :
  utf8_code_point c = Some bs -> (1 <= length bs <= 4)%nat.
Proof.
  unfold utf8_code_point.
  destruct (c <? 0x80); [intros H; injection H as <-; simpl; lia|].
  destruct (c <? 0x800); [intros H; injection H as <-; simpl; lia|].
  destruct (is_surrogate c); [discriminate|].
  destruct (c <? 0x10000); [intros H; injection H as <-; simpl; lia|].
  destruct (c <? 0x110000); [intros H; injection H as <-; simpl; lia|].
  discriminate.
Qed.

Lemma utf8_from_length (whole : text) (s : text) :
  forall pos b, utf8_from whole pos s = Ok b ->
                (length s <= length b <= 4 * length s)%nat.
Proof.
  induction s as [|c s IH]; intros pos b H; simpl in H.
  - injection H as <-. simpl. lia.
  - destruct (utf8_code_point c) as [bs|] eqn:Hc; [|discriminate].
    bind_inv H. injection H as <-.
    pose proof (utf8_code_point_length c bs Hc).
    pose proof (IH _ _ Ha). rewrite length_app. simpl. lia.
Qed.

Lemma utf8_from_ascii (whole : text) (s : text) :
  forall pos, Forall (fun c => c < 0x80) s ->
              utf8_from whole pos s = Ok (map octet s).
Proof.
  induction s as [|c s IH]; intros pos H; simpl; [reflexivity|].
  inversion H as [|? ? Hc Hs]; subst.
  unfold utf8_code_point. destruct (N.ltb_spec c 0x80); [|lia].
  rewrite (IH (S pos) Hs). reflexivity.
Qed.

(** X4: decoding what [encode('utf-8')] returns gives the text back; so two
    texts with the same octets are the same text. *)
Theorem encode_utf8_round_trip (s : text) (b : bytes) :
  encode_utf8 s = Ok b ->
  decode_utf8 b = Ok s /\ (forall t, encode_utf8 t = Ok b -> t = s).
Proof.
  intros H. pose proof (decode_utf8_from s s 0 b H) as Hd.
  split; [exact Hd|]. intros t Ht.
  pose proof (decode_utf8_from t t 0 b Ht) as Hd'. congruence.
Qed.

(** X5: the octets of a text are at least as many as its code points and at
    most four times as many; the octets of a text of ASCII code points are
    these code points. *)
Theorem encode_utf8_length (s : text) :
  (forall b, encode_utf8 s = Ok b ->
             (length s <= length b <= 4 * length s)%nat) /\
  (Forall (fun c => c < 0x80) s -> encode_utf8 s = Ok (map octet s)).
Proof.
  split; [intros b; apply utf8_from_length | apply utf8_from_ascii].
Qed.

(** A text with a code point of each length, and its octets. *)
Definition codec_sample : text := [0x61; 0xFC; 0x20AC; 0x1F600].
Definition codec_sample_octets : bytes :=
  [x61; xc3; xbc; xe2; x82; xac; xf0; x9f; x98; x80].

Lemma encode_utf8_round_trip_witness :
  encode_utf8 codec_sample = Ok codec_sample_octets /\
  decode_utf8 codec_sample_octets = Ok codec_sample.
Proof.
  split; [reflexivity|].
  apply (encode_utf8_round_trip codec_sample). reflexivity.
Defined.

Lemma encode_utf8_length_witness :
  encode_utf8 (str_lit "type") = Ok (map octet (str_lit "type")) /\
  (length codec_sample <= length codec_sample_octets
   <= 4 * length codec_sample)%nat.
Proof.
  split.
  - apply (proj2 (encode_utf8_length (str_lit "type"))).
    repeat constructor.
  - apply (proj1 (encode_utf8_length codec_sample)). reflexivity.
Defined.

(** ** Dicts whose keys are all text *)

Lemma encode_utf8_inj (s t : text) (b : bytes) :
  encode_utf8 s = Ok b -> encode_utf8 t = Ok b -> s = t.
Proof.
  intros Hs Ht. pose proof (decode_utf8_from s s 0 b Hs).
  pose proof (decode_utf8_from t t 0 b Ht). congruence.
Qed.

Definition text_key (k : pyval) : bool :=
  match k with
  | PStr _ => true
  | _ => false
  end.

(** A text key and the key it becomes. *)
Definition encoded_key (k k' : pyval) : Prop :=
  exists t b, k = PStr t /\ k' = PBytes b /\ encode_utf8 t = Ok b.

Lemma key_eqb_bytes (s t : bytes) : key_eqb (PBytes s) (PBytes t) = true <-> s = t.
Proof. simpl. unfold bytes_eqb. apply bool_decide_eq_true. Qed.

Lemma encoded_key_eqb (k1 k2 k1' k2' : pyval) :
  encoded_key k1 k1' -> encoded_key k2 k2' -> key_eqb k1' k2' = key_eqb k1 k2.
Proof.
  intros (t1 & b1 & -> & -> & H1) (t2 & b2 & -> & -> & H2).
  destruct (key_eqb (PStr t1) (PStr t2)) eqn:Heq.
  - apply key_eqb_str in Heq. subst t2. apply key_eqb_bytes. congruence.
  - apply not_true_iff_false. intros Hb. apply key_eqb_bytes in Hb. subst b2.
    apply not_true_iff_false in Heq. apply Heq, key_eqb_str.
    eapply encode_utf8_inj; eassumption.
Qed.

Lemma encoded_keys_distinct (ks ks' : list pyval) :
  Forall2 encoded_key ks ks' -> distinct_keys ks' = distinct_keys ks.
Proof.
  induction 1 as [|k k' ks ks' Hk HF IH]; simpl; [reflexivity|].
  rewrite IH. f_equal. clear IH.
  induction HF as [|k2 k2' ks ks' Hk2 _ IH2]; simpl; [reflexivity|].
  rewrite IH2, (encoded_key_eqb k k2 k' k2' Hk Hk2). reflexivity.
Qed.

Lemma encoded_keys_get (R : pyval -> pyval -> Prop) (items d : dict_items) :
  Forall2 (fun kv kv' => encoded_key (fst kv) (fst kv') /\
                         R (snd kv) (snd kv')) items d ->
  forall t v, dict_get items (PStr t) = Some v ->
              exists b v', encode_utf8 t = Ok b /\
                           dict_get d (PBytes b) = Some v' /\ R v v'.
Proof.
  induction 1 as [|[k0 v0] [k0' v0'] items d [Hk0 Hv0] _ IH];
    intros t v Hget; [discriminate|].
  cbn [dict_get] in Hget |- *. cbn [fst snd] in Hk0, Hv0.
  destruct (key_eqb k0 (PStr t)) eqn:Heq.
  - injection Hget as <-. destruct Hk0 as (t0 & b0 & -> & -> & Henc).
    apply key_eqb_str in Heq. subst t0. exists b0, v0'.
    rewrite (proj2 (key_eqb_bytes b0 b0) eq_refl). auto.
  - destruct (IH t v Hget) as (b & v' & Henc & Hd & Hv).
    exists b, v'. split; [exact Henc|]. split; [|exact Hv].
    rewrite (encoded_key_eqb k0 (PStr t) k0' (PBytes b) Hk0), Heq; [exact Hd|].
    exists t, b. auto.
Qed.

Lemma text_keys_encoded (items : dict_items) :
  well_formed (PDict items) = true -> encodable (PDict items) = true ->
  forallb (fun kv => text_key (fst kv)) items = true ->
  exists d,
    strings2utf8 (PDict items) = Ok (PDict d) /\
    Forall2 (fun kv kv' => encoded_key (fst kv) (fst kv') /\
                           strings2utf8 (snd kv) = Ok (snd kv')) items d.
Proof.
  intros Hwf Henc Htext.
  destruct (proj1 (strings2utf8_returns_iff _ Hwf) Henc) as [y Hy].
  destruct (strings2utf8_dict_ok items y Hy) as (pairs & HF & _ & ->).
  assert (HF' : Forall2 (fun kv kv' => encoded_key (fst kv) (fst kv') /\
                                       strings2utf8 (snd kv) = Ok (snd kv'))
                  items pairs).
  { rewrite forallb_true_Forall in Htext. clear -HF Htext.
    induction HF as [|[k v] [k' v'] items pairs [Hk Hv] _ IH]; [constructor|].
    inversion Htext as [|? ? Hkt Htext']; subst. constructor; [|auto].
    simpl in *. split; [|exact Hv].
    destruct k as [| | |t| | | | |]; try discriminate Hkt.
    simpl in Hk. bind_inv Hk. injection Hk as <-. exists t, a. auto. }
  assert (Hd : distinct_keys (dict_keys pairs) = true).
  { simpl in Hwf. apply andb_true_iff in Hwf. destruct Hwf as [_ Hd].
    rewrite <- Hd. apply encoded_keys_distinct. clear -HF'.
    induction HF' as [|? ? ? ? [? _] _ ?]; simpl; constructor; assumption. }
  exists pairs. split; [|exact HF'].
  rewrite Hy, (store_all_append pairs []) by exact Hd. reflexivity.
Qed.

(** X6: text keys are never merged.  For a dict whose keys are all text,
    [strings2utf8] returns a dict with the same number of entries in the same
    order, each key being the octets of the key and each value the encoded
    value; a lookup by the octets of a key finds the encoded value of that
    key. *)
Theorem strings2utf8_text_keys (items : dict_items) :
  well_formed (PDict items) = true -> encodable (PDict items) = true ->
  forallb (fun kv => text_key (fst kv)) items = true ->
  exists d,
    strings2utf8 (PDict items) = Ok (PDict d) /\
    length d = length items /\
    Forall2 (fun kv kv' => encoded_key (fst kv) (fst kv') /\
                           strings2utf8 (snd kv) = Ok (snd kv')) items d /\
    (forall t v, dict_get items (PStr t) = Some v ->
                 exists b v', encode_utf8 t = Ok b /\
                              dict_get d (PBytes b) = Some v' /\
                              strings2utf8 v = Ok v').
Proof.
  intros Hwf Henc Htext.
  destruct (text_keys_encoded items Hwf Henc Htext) as (d & Hd & HF).
  exists d. split; [exact Hd|]. split; [symmetry; eapply Forall2_length, HF|].
  split; [exact HF|].
  apply (encoded_keys_get (fun v v' => strings2utf8 v = Ok v')), HF.
Qed.

Lemma strings2utf8_text_keys_witness :
  well_formed sample_selector = true /\ encodable sample_selector = true /\
  exists d,
    strings2utf8 sample_selector = Ok (PDict d) /\
    length d = 2%nat /\
    exists b v', encode_utf8 (str_lit "foobar") = Ok b /\
                 dict_get d (PBytes b) = Some v' /\
                 strings2utf8 (PInt 2) = Ok v'.
Proof.
  split; [reflexivity|]. split; [reflexivity|].
  destruct (strings2utf8_text_keys
              [(PStr (str_lit "foofoo"), PStr (str_lit "test"));
               (PStr (str_lit "foobar"), PInt 2)]
              eq_refl eq_refl eq_refl) as (d & Hd & Hlen & _ & Hget).
  exists d. split; [exact Hd|]. split; [exact Hlen|].
  apply (Hget (str_lit "foobar") (PInt 2)). reflexivity.
Defined.

(** ** [line2dict] on a well-formed record *)

(** A namedtuple as a parser returns it: its names are texts of code points
    and its values are well-formed values. *)
Definition well_formed_record (data : namedtuple) : Prop :=
  well_formed_nt data /\
  forallb is_code_point (class_name data) = true /\
  Forall (fun f => forallb is_code_point f = true) (fields data) /\
  Forall (fun v => well_formed v = true) (values data).

(** No surrogate in the class name, in a field name or in a value. *)
Definition encodable_record (data : namedtuple) : bool :=
  encodable (PStr (class_name data))
  && forallb (fun f => encodable (PStr f)) (fields data)
  && forallb encodable (values data).

(** The dict that [tuple2dict] makes of a namedtuple without a field
    ['type']. *)
Definition record_items (data : namedtuple) : dict_items :=
  field_items data ++ [(type_key, PStr (class_name data))].

Lemma combine_Forall (P Q : pyval -> Prop) (ks vs : list pyval) :
  length ks = length vs ->
  (Forall (fun kv => P (fst kv) /\ Q (snd kv)) (combine ks vs) <->
   Forall P ks /\ Forall Q vs).
Proof.
  revert vs. induction ks as [|k ks IH]; intros [|v vs] Hlen;
    try discriminate Hlen; simpl.
  - split; [intros _; split; constructor | intros _; constructor].
  - injection Hlen as Hlen. specialize (IH vs Hlen). split.
    + intros H. inversion H as [|? ? [Hk Hv] H']; subst.
      apply IH in H'. destruct H' as [Hks Hvs]. split; constructor; assumption.
    + intros [Hks Hvs]. inversion Hks; inversion Hvs; subst.
      constructor; [split; assumption | apply IH; split; assumption].
Qed.

Lemma record_items_tuple2dict (data : namedtuple) :
  well_formed_nt data -> ~ In (str_lit "type") (fields data) ->
  tuple2dict data = Ok (PDict (record_items data)).
Proof.
  intros Hwf Hnin. pose proof Hwf as [Hlen _].
  rewrite (tuple2dict_fields data Hwf). unfold record_items.
  rewrite (dict_store_fresh (field_items data)); [reflexivity|].
  rewrite (field_items_keys data Hlen). apply fresh_key_str, Hnin.
Qed.

Lemma record_items_well_formed (data : namedtuple) :
  well_formed_record data -> ~ In (str_lit "type") (fields data) ->
  well_formed (PDict (record_items data)) = true /\
  forallb (fun kv => text_key (fst kv)) (record_items data) = true /\
  (encodable (PDict (record_items data)) = true <->
   encodable_record data = true).
Proof.
  intros ([Hlen Hnd] & Hcls & Hfs & Hvs) Hnin.
  assert (Hlen' : length (map PStr (fields data)) = length (values data))
    by (rewrite length_map; exact Hlen).
  unfold record_items, field_items. split; [|split].
  - simpl. apply andb_true_iff. split.
    + rewrite forallb_app. apply andb_true_iff. split.
      * apply forallb_true_Forall.
        pose proof (proj2 (combine_Forall
                             (fun k => well_formed k = true /\ hashable k = true)
                             (fun v => well_formed v = true)
                             _ _ Hlen')) as H.
        eapply Forall_impl; [apply H|].
        -- split; [|exact Hvs]. apply Forall_fmap.
           eapply Forall_impl; [exact Hfs|]. intros f Hf. simpl. auto.
        -- intros [k v] [[Hk Hh] Hv]. simpl in *. rewrite Hk, Hh, Hv. reflexivity.
      * simpl. rewrite Hcls. reflexivity.
    + rewrite map_app. fold (dict_keys (combine (map PStr (fields data)) (values data))).
      fold (field_items data). rewrite (field_items_keys data Hlen). simpl.
      rewrite distinct_keys_snoc. apply andb_true_iff. split.
      * apply distinct_keys_str, Hnd.
      * apply fresh_key_str, Hnin.
  - rewrite forallb_app. apply andb_true_iff. split; [|reflexivity].
    apply forallb_true_Forall.
    pose proof (proj2 (combine_Forall (fun k => text_key k = true) (fun _ => True)
                         _ _ Hlen')) as H.
    eapply Forall_impl; [apply H|].
    + split; [apply Forall_fmap, Forall_true; reflexivity
             | apply Forall_true; exact (fun _ => I)].
    + intros [k v] [Hk _]. exact Hk.
  - pose proof (combine_Forall (fun k => encodable k = true)
                  (fun v => encodable v = true) _ _ Hlen') as H.
    rewrite Forall_fmap in H.
    assert (Hfi : forallb (fun kv => let '(k, x) := kv in encodable k && encodable x)
                    (combine (map PStr (fields data)) (values data)) = true <->
                  forallb (fun f => encodable (PStr f)) (fields data) = true /\
                  forallb encodable (values data) = true).
    { rewrite !forallb_true_Forall, <- H. split; intros HF;
        (eapply Forall_impl; [exact HF|]); intros [k v] Hkv; simpl in *;
        [apply andb_true_iff, Hkv | apply andb_true_iff; exact Hkv]. }
    assert (Hty : forallb (fun kv => let '(k, x) := kv in encodable k && encodable x)
                    [(type_key, PStr (class_name data))] = true <->
                  encodable (PStr (class_name data)) = true).
    { destruct (encodable (PStr (class_name data))) eqn:Hc; cbn [forallb];
        rewrite Hc; vm_compute; tauto. }
    unfold encodable_record. cbn [encodable] in Hfi, Hty |- *.
    rewrite forallb_app, !andb_true_iff, Hfi, Hty. tauto.
Qed.

(** The record of the header line of a filter list, [Header(version='2.0')],
    with the class name that the spec gives it, and a stand-in for
    [parse_line] that returns it. *)
Definition header_record : namedtuple :=
  {| class_name := str_lit "header";
     fields := [str_lit "version"];
     values := [PStr (str_lit "2.0")] |}.
Definition parse_header (line : pyval) : result namedtuple := Ok header_record.

Lemma header_record_well_formed :
  well_formed_record header_record /\ ~ In (str_lit "type") (fields header_record).
Proof.
  split.
  - split; [split; [reflexivity | compute_done]|].
    split; [reflexivity|]. split; repeat constructor.
  - intros [H | []]. discriminate H.
Qed.

(** X7: when the parser returns a well-formed namedtuple without a field
    ['type'], [line2dict] returns exactly when no surrogate is in the class
    name, in a field name or in a value, and otherwise raises
    [UnicodeEncodeError]; it never raises another exception of its own. *)
Theorem line2dict_returns (parse_line : pyval -> result namedtuple)
  (line : pyval) (data : namedtuple) :
  parse_line line = Ok data ->
  well_formed_record data -> ~ In (str_lit "type") (fields data) ->
  (encodable_record data = true <->
   exists y, line2dict parse_line line = Ok y) /\
  (forall e, line2dict parse_line line = Raise e ->
             exists object start, e = UnicodeEncodeError object start).
Proof.
  intros Hparse Hwf Hnin.
  destruct (record_items_well_formed data Hwf Hnin) as (Hwfd & _ & Henc).
  unfold line2dict. rewrite Hparse. simpl.
  rewrite (record_items_tuple2dict data (proj1 Hwf) Hnin). cbn [bind].
  split.
  - rewrite <- Henc. apply strings2utf8_returns_iff, Hwfd.
  - intros e. apply strings2utf8_raises, Hwfd.
Qed.

Lemma line2dict_returns_witness :
  parse_header (PStr (str_lit "[Adblock Plus 2.0]")) = Ok header_record /\
  encodable_record header_record = true /\
  exists y, line2dict parse_header (PStr (str_lit "[Adblock Plus 2.0]")) = Ok y.
Proof.
  split; [reflexivity|]. split; [reflexivity|].
  destruct header_record_well_formed as [Hwf Hnin].
  apply (proj1 (line2dict_returns parse_header
                  (PStr (str_lit "[Adblock Plus 2.0]")) header_record
                  eq_refl Hwf Hnin)).
  reflexivity.
Defined.

Lemma field_keys_encoded (R : pyval -> pyval -> Prop) (names : list text) :
  forall (vals : list pyval) (d : dict_items),
    Forall2 (fun kv kv' => encoded_key (fst kv) (fst kv') /\
                           R (snd kv) (snd kv'))
      (combine (map PStr names) vals) d ->
    length names = length vals ->
    exists bs, Forall2 (fun f b => encode_utf8 f = Ok b) names bs /\
               dict_keys d = map PBytes bs.
Proof.
  induction names as [|f names IH]; intros [|v vals] d HF Hlen;
    try discriminate Hlen; simpl in HF.
  - inversion HF; subst. exists []. split; constructor.
  - inversion HF as [|? [k' v'] ? d' [Hk _] HF']; subst.
    injection Hlen as Hlen. destruct (IH vals d' HF' Hlen) as (bs & Hbs & Hkeys).
    destruct Hk as (t & b & Ht & Hb & Henc). simpl in Ht, Hb.
    injection Ht as <-. subst k'.
    exists (b :: bs). split; [constructor; assumption|].
    simpl. rewrite Hkeys. reflexivity.
Qed.

Lemma line2dict_record (parse_line : pyval -> result namedtuple)
  (line : pyval) (data : namedtuple) :
  parse_line line = Ok data ->
  well_formed_record data -> ~ In (str_lit "type") (fields data) ->
  encodable_record data = true ->
  exists d bs,
    line2dict parse_line line = Ok (PDict d) /\
    Forall2 (fun f b => encode_utf8 f = Ok b) (fields data) bs /\
    dict_keys d = map PBytes bs ++ [PBytes (bytes_lit "type")] /\
    (forall i f v,
        fields data !! i = Some f -> values data !! i = Some v ->
        exists b v', encode_utf8 f = Ok b /\ strings2utf8 v = Ok v' /\
                     dict_get d (PBytes b) = Some v') /\
    (exists c, encode_utf8 (class_name data) = Ok c /\
               dict_get d (PBytes (bytes_lit "type")) = Some (PBytes c)).
Proof.
  intros Hparse Hwf Hnin Henc. pose proof Hwf as ([Hlen Hnd] & _).
  destruct (record_items_well_formed data Hwf Hnin) as (Hwfd & Htext & Hiff).
  apply Hiff in Henc.
  destruct (text_keys_encoded (record_items data) Hwfd Henc Htext)
    as (d & Hd & HF).
  assert (Hrun : line2dict parse_line line = Ok (PDict d)).
  { unfold line2dict. rewrite Hparse. simpl.
    rewrite (record_items_tuple2dict data (proj1 Hwf) Hnin). exact Hd. }
  pose proof (encoded_keys_get (fun v v' => strings2utf8 v = Ok v') _ _ HF)
    as Hget.
  assert (Hstore : record_items data =
                   dict_store (field_items data) type_key (PStr (class_name data))).
  { unfold record_items. symmetry. apply dict_store_fresh.
    rewrite (field_items_keys data Hlen). apply fresh_key_str, Hnin. }
  unfold record_items in HF.
  apply Forall2_app_inv_l in HF. destruct HF as (d1 & d2 & HF1 & HF2 & ->).
  inversion HF2 as [|? [k' v'] ? ? [Hk Hv] HF2']; subst. inversion HF2'; subst.
  destruct Hk as (t & b & Ht & Hb & Hbenc). cbn [fst snd] in Ht, Hb, Hv.
  unfold type_key in Ht. injection Ht as <-. subst k'.
  assert (Htype : encode_utf8 (str_lit "type") = Ok (bytes_lit "type"))
    by reflexivity.
  rewrite Htype in Hbenc. injection Hbenc as <-.
  destruct (field_keys_encoded (fun v w => strings2utf8 v = Ok w)
              (fields data) (values data) d1 HF1 Hlen) as (bs & Hbs & Hkeys).
  exists (d1 ++ [(PBytes (bytes_lit "type"), v')]), bs.
  split; [exact Hrun|]. split; [exact Hbs|]. split; [|split].
  - unfold dict_keys in *. rewrite map_app, Hkeys. reflexivity.
  - intros i f v Hf Hval.
    assert (Hne : f <> str_lit "type").
    { intros ->. apply Hnin, list_elem_of_In. eapply list_elem_of_lookup_2, Hf. }
    destruct (Hget f v) as (b & w & Hb & Hd' & Hw).
    + rewrite Hstore, dict_get_store; try reflexivity;
        [|apply str_keys_hashable].
      destruct (key_eqb type_key (PStr f)) eqn:Heq.
      * apply key_eqb_str in Heq. congruence.
      * eapply dict_get_field; eassumption.
    + exists b, w. auto.
  - destruct (Hget (str_lit "type") (PStr (class_name data)))
      as (b & w & Hb & Hd' & Hw).
    + rewrite Hstore. apply dict_get_store_same. reflexivity.
    + rewrite Htype in Hb. injection Hb as <-.
      cbn [strings2utf8] in Hw. bind_inv Hw. injection Hw as <-.
      exists a. auto.
Qed.

(** X8: when the parser returns a well-formed namedtuple without a field
    ['type'] and without surrogates, [line2dict] returns a dict whose keys
    are the octets of the field names, in the order of the fields, followed
    by [b'type']; under the octets of a field name is the encoded value of
    the field, and under [b'type'] the octets of the class name. *)
Theorem line2dict_entries (parse_line : pyval -> result namedtuple)
  (line : pyval) (data : namedtuple) :
  parse_line line = Ok data ->
  well_formed_record data -> ~ In (str_lit "type") (fields data) ->
  encodable_record data = true ->
  exists d bs,
    line2dict parse_line line = Ok (PDict d) /\
    Forall2 (fun f b => encode_utf8 f = Ok b) (fields data) bs /\
    dict_keys d = map PBytes bs ++ [PBytes (bytes_lit "type")] /\
    (forall i f v,
        fields data !! i = Some f -> values data !! i = Some v ->
        exists b v', encode_utf8 f = Ok b /\ strings2utf8 v = Ok v' /\
                     dict_get d (PBytes b) = Some v') /\
    (exists c, encode_utf8 (class_name data) = Ok c /\
               dict_get d (PBytes (bytes_lit "type")) = Some (PBytes c)).
Proof. apply line2dict_record. Qed.

Lemma line2dict_entries_witness :
  line2dict parse_header (PStr (str_lit "[Adblock Plus 2.0]")) =
    Ok (PDict [(PBytes (bytes_lit "version"), PBytes (bytes_lit "2.0"));
               (PBytes (bytes_lit "type"), PBytes (bytes_lit "header"))]) /\
  exists d bs,
    line2dict parse_header (PStr (str_lit "[Adblock Plus 2.0]")) = Ok (PDict d) /\
    Forall2 (fun f b => encode_utf8 f = Ok b) (fields header_record) bs /\
    dict_keys d = map PBytes bs ++ [PBytes (bytes_lit "type")] /\
    (forall i f v,
        fields header_record !! i = Some f -> values header_record !! i = Some v ->
        exists b v', encode_utf8 f = Ok b /\ strings2utf8 v = Ok v' /\
                     dict_get d (PBytes b) = Some v') /\
    (exists c, encode_utf8 (class_name header_record) = Ok c /\
               dict_get d (PBytes (bytes_lit "type")) = Some (PBytes c)).
Proof.
  split; [reflexivity|].
  destruct header_record_well_formed as [Hwf Hnin].
  apply (line2dict_entries parse_header (PStr (str_lit "[Adblock Plus 2.0]"))
           header_record eq_refl Hwf Hnin).
  reflexivity.
Defined.

(** X9: under the same conditions, decoding the keys of the dict that
    [line2dict] returns gives back the field names, in order, and ['type']:
    the lookup [expected_types[key.decode('utf-8')]] of the tests finds the
    field of every key. *)
Theorem line2dict_keys_decode (parse_line : pyval -> result namedtuple)
  (line : pyval) (data : namedtuple) :
  parse_line line = Ok data ->
  well_formed_record data -> ~ In (str_lit "type") (fields data) ->
  encodable_record data = true ->
  exists d,
    line2dict parse_line line = Ok (PDict d) /\
    Forall2 (fun k f => exists b, k = PBytes b /\ decode_utf8 b = Ok f)
      (dict_keys d) (fields data ++ [str_lit "type"]).
Proof.
  intros Hparse Hwf Hnin Henc.
  destruct (line2dict_record parse_line line data Hparse Hwf Hnin Henc)
    as (d & bs & Hrun & Hbs & Hkeys & _).
  exists d. split; [exact Hrun|]. rewrite Hkeys. apply Forall2_app.
  - clear -Hbs. induction Hbs as [|f b fs bs Hfb _ IH]; simpl; constructor.
    + exists b. split; [reflexivity|]. eapply decode_utf8_from, Hfb.
    + exact IH.
  - constructor; [|constructor]. exists (bytes_lit "type").
    split; reflexivity.
Qed.

Lemma line2dict_keys_decode_witness :
  exists d,
    line2dict parse_header (PStr (str_lit "[Adblock Plus 2.0]")) = Ok (PDict d) /\
    Forall2 (fun k f => exists b, k = PBytes b /\ decode_utf8 b = Ok f)
      (dict_keys d) [str_lit "version"; str_lit "type"].
Proof.
  destruct header_record_well_formed as [Hwf Hnin].
  apply (line2dict_keys_decode parse_header (PStr (str_lit "[Adblock Plus 2.0]"))
           header_record eq_refl Hwf Hnin).
  reflexivity.
Defined.

(** ** Keys under [strings2utf8] *)

Lemma strings2utf8_key_norm (x : pyval) :
  hashable x = true ->
  forall y, strings2utf8 x = Ok y -> strings2utf8 (key_norm x) = Ok (key_norm y).
Proof.
  induction x as [| | | s | |items IH|items IH|items IH|] using pyval_ind;
    intros Hh y H; try discriminate Hh;
    try (injection H as <-; reflexivity).
  - simpl in H. bind_inv H. injection H as <-. simpl.
    unfold encode_utf8 in Ha. fold (encode_utf8 s) in Ha. rewrite Ha. reflexivity.
  - apply strings2utf8_tuple_ok in H. destruct H as (ys & -> & HF).
    simpl in Hh. rewrite forallb_true_Forall in Hh.
    assert (Hl : list_comp strings2utf8 (map key_norm items)
                 = Ok (map key_norm ys)).
    { apply list_comp_ok. clear -IH Hh HF. revert ys HF.
      induction IH as [|x xs Hx _ IHxs]; intros ys HF; inversion HF; subst;
        simpl; constructor.
      - inversion Hh; subst. apply Hx; assumption.
      - inversion Hh; subst. apply IHxs; assumption. }
    cbn [key_norm strings2utf8]. rewrite Hl. reflexivity.
Qed.

(** X10: [strings2utf8] keeps a key a key: the result is hashable exactly
    when the argument is, and two keys that are equal are still equal after
    the encoding (so encoding a dict can merge entries but never tell apart
    two equal keys). *)
Theorem strings2utf8_keeps_keys (k1 k2 k1' k2' : pyval) :
  strings2utf8 k1 = Ok k1' -> strings2utf8 k2 = Ok k2' ->
  hashable k1' = hashable k1 /\
  (hashable k1 = true -> hashable k2 = true ->
   key_eqb k1 k2 = true -> key_eqb k1' k2' = true).
Proof.
  intros H1 H2. pose proof (strings2utf8_hashable k1 k1' H1) as Hh1.
  pose proof (strings2utf8_hashable k2 k2' H2) as Hh2.
  split; [exact Hh1|]. intros Hk1 Hk2 Heq.
  apply key_eqb_norm in Heq; [|assumption..].
  apply key_eqb_norm; [congruence..|].
  pose proof (strings2utf8_key_norm k1 Hk1 k1' H1) as Hn1.
  pose proof (strings2utf8_key_norm k2 Hk2 k2' H2) as Hn2.
  congruence.
Qed.

Lemma strings2utf8_keeps_keys_witness :
  let k1 := PTuple [PStr (str_lit "a"); PBool true] in
  let k2 := PTuple [PStr (str_lit "a"); PInt 1] in
  key_eqb k1 k2 = true /\
  exists k1' k2', strings2utf8 k1 = Ok k1' /\ strings2utf8 k2 = Ok k2' /\
                  hashable k1' = true /\ key_eqb k1' k2' = true.
Proof.
  intros k1 k2. split; [reflexivity|].
  exists (PTuple [PBytes (bytes_lit "a"); PBool true]),
         (PTuple [PBytes (bytes_lit "a"); PInt 1]).
  split; [reflexivity|]. split; [reflexivity|].
  destruct (strings2utf8_keeps_keys k1 k2
              (PTuple [PBytes (bytes_lit "a"); PBool true])
              (PTuple [PBytes (bytes_lit "a"); PInt 1]) eq_refl eq_refl)
    as [Hh Heq].
  split; [exact Hh | apply Heq; reflexivity].
Defined.

(** ** A container that holds itself *)

Section HeapComprehensionsCalls.
Variable f : hval -> run hval.
Hypothesis f_frame : forall v h h' r, f v h = Some (h', r) -> h `prefix_of` h'.

(** A list comprehension that returns has called [f] on every element, each
    time in a store that extends the first one, and [f] returned. *)
Lemma list_comp_h_calls (items : list hval) (h0 h h' : heap) (new : nat)
  (u : unit) :
  list_comp_h f new items h = Some (h', Ok u) ->
  h0 `prefix_of` h -> (length h0 <= new)%nat ->
  forall v, In v items ->
            exists h1 h2 y, h0 `prefix_of` h1 /\ f v h1 = Some (h2, Ok y).
Proof.
  revert h. induction items as [|v0 items IH]; intros h H Hp Hn v Hin;
    [destruct Hin|]. simpl in H.
  destruct (f v0 h) as [[h1 [v'|e]]|] eqn:Hf; try discriminate.
  destruct Hin as [<- | Hin]; [eauto|].
  assert (Hp1 : h0 `prefix_of` h1)
    by (etrans; [exact Hp | eapply f_frame, Hf]).
  destruct (append_h new v' h1) as [[h2 [[]|e]]|] eqn:Ha; try discriminate.
  eapply (IH h2); [exact H | | exact Hn | exact Hin].
  eapply append_h_frame; eauto.
Qed.

Lemma dict_comp_h_calls (items : list (hval * hval)) (h0 h h' : heap)
  (new : nat) (u : unit) :
  dict_comp_h f new items h = Some (h', Ok u) ->
  h0 `prefix_of` h -> (length h0 <= new)%nat ->
  forall k v, In (k, v) items ->
              exists h1 h2 y, h0 `prefix_of` h1 /\ f v h1 = Some (h2, Ok y).
Proof.
  revert h. induction items as [|[k0 v0] items IH]; intros h H Hp Hn k v Hin;
    [destruct Hin|]. simpl in H.
  destruct (f k0 h) as [[h1 [k'|e]]|] eqn:Hk; try discriminate.
  assert (Hp1 : h0 `prefix_of` h1)
    by (etrans; [exact Hp | eapply f_frame, Hk]).
  destruct (f v0 h1) as [[h2 [v'|e]]|] eqn:Hv; try discriminate.
  destruct Hin as [Heq | Hin]; [injection Heq as <- <-; eauto|].
  assert (Hp2 : h0 `prefix_of` h2)
    by (etrans; [exact Hp1 | eapply f_frame, Hv]).
  destruct (setitem_h new k' v' h2) as [[h3 [[]|e]]|] eqn:Hs; try discriminate.
  eapply (IH h3); [exact H | | exact Hn | exact Hin].
  eapply setitem_h_frame; eauto.
Qed.
End HeapComprehensionsCalls.

(** The object at [a] is a list with itself as an element, or a dict with
    itself as a value. *)
Definition holds_itself (h : heap) (a : nat) : Prop :=
  (exists items, h !! a = Some (OList items) /\ In (HRef a) items) \/
  (exists items k, h !! a = Some (ODict items) /\ In (k, HRef a) items).

Lemma holds_itself_prefix (h h' : heap) (a : nat) :
  h `prefix_of` h' -> holds_itself h a -> holds_itself h' a.
Proof.
  intros Hp [(items & Hl & Hin) | (items & k & Hl & Hin)].
  - left. exists items. split; [eapply prefix_lookup_Some; eauto | exact Hin].
  - right. exists items, k.
    split; [eapply prefix_lookup_Some; eauto | exact Hin].
Qed.

(** X11: there is no cycle detection.  On a list that has itself as an
    element, or a dict that has itself as a value, [strings2utf8] returns no
    value, however deep the calls may go: the recursion does not end (or an
    element met before raises). *)
Theorem strings2utf8_h_no_cycle_detection (fuel : nat) :
  forall (h : heap) (a : nat),
    holds_itself h a ->
    forall h' y, strings2utf8_h fuel (HRef a) h <> Some (h', Ok y).
Proof.
  induction fuel as [|fuel IH]; intros h a Hself h' y H; [discriminate|].
  simpl in H.
  destruct Hself as [(items & Hl & Hin) | (items & k & Hl & Hin)];
    rewrite Hl in H.
  - destruct (list_comp_h _ _ _ _) as [[h1 [u|e]]|] eqn:Hc; try discriminate.
    destruct (list_comp_h_calls _ (strings2utf8_h_frame fuel) _ h _ _ _ _ Hc)
      with (v := HRef a) as (h2 & h3 & z & Hp & Hcall);
      [apply prefix_app_r; reflexivity | lia | exact Hin |].
    eapply (IH h2 a); [|exact Hcall].
    eapply holds_itself_prefix; [exact Hp|]. left. eauto.
  - destruct (dict_comp_h _ _ _ _) as [[h1 [u|e]]|] eqn:Hc; try discriminate.
    destruct (dict_comp_h_calls _ (strings2utf8_h_frame fuel) _ h _ _ _ _ Hc)
      with (k := k) (v := HRef a) as (h2 & h3 & z & Hp & Hcall);
      [apply prefix_app_r; reflexivity | lia | exact Hin |].
    eapply (IH h2 a); [|exact Hcall].
    eapply holds_itself_prefix; [exact Hp|]. right. eauto.
Qed.

(** A store with the list [l = [1, l]] at address 0. *)
Definition cyclic_heap : heap := [OList [HInt 1; HRef 0]].

Lemma strings2utf8_h_no_cycle_detection_witness :
  holds_itself cyclic_heap 0 /\
  strings2utf8_h 50 (HRef 0) cyclic_heap = None /\
  forall h' y, strings2utf8_h 50 (HRef 0) cyclic_heap <> Some (h', Ok y).
Proof.
  assert (Hself : holds_itself cyclic_heap 0).
  { left. exists [HInt 1; HRef 0%nat]. split; [reflexivity|].
    right. left. reflexivity. }
  split; [exact Hself|]. split; [reflexivity|].
  apply (strings2utf8_h_no_cycle_detection 50 cyclic_heap 0%nat Hself).
Defined.

(** ** The promise of [line2dict] *)

(** X12: whatever the parser and the line, what [line2dict] returns is a
    dict that passes [check_data_utf8]: all strings in it, keys included, are
    byte strings ([test_line2dict_encoding], for every line). *)
Theorem line2dict_passes_check (parse_line : pyval -> result namedtuple)
  (line y : pyval) :
  line2dict parse_line line = Ok y ->
  (exists d, y = PDict d) /\ check_data_utf8 y = Ok tt /\ well_formed y = true.
Proof.
  unfold line2dict. intros H. bind_inv H. bind_inv H.
  rewrite tuple2dict_eq in Ha0. injection Ha0 as <-.
  destruct (strings2utf8_output _ _ H) as [Hwf Hnt].
  split; [|split; [apply check_data_utf8_no_text, Hnt | exact Hwf]].
  apply strings2utf8_dict_ok in H. destruct H as (pairs & _ & _ & ->). eauto.
Qed.

Lemma line2dict_passes_check_witness :
  exists y,
    line2dict parse_header (PBytes (bytes_lit "[Adblock Plus 2.0]")) = Ok y /\
    (exists d, y = PDict d) /\ check_data_utf8 y = Ok tt /\ well_formed y = true.
Proof.
  eexists. split; [reflexivity|].
  apply (line2dict_passes_check parse_header
           (PBytes (bytes_lit "[Adblock Plus 2.0]"))).
  reflexivity.
Defined.
